(** * Twitch chat code watcher (main.py): model and properties

    A shallow embedding of [main.py]: the IRC read loop with its line
    buffer, the keepalive reply, the envelope split, the code pattern and
    the registry of seen codes, followed by the properties of the
    specification that concern them.

    Conventions.
    - A Python [str] is a list of Unicode code points ([list N]); [bytes]
      is a [list byte].
    - What the interpreter and the operating system decide (the Unicode
      case and word tables, the regex compiler on a user pattern, [int],
      the clipboard) is a field of [Platform]; every theorem holds for
      every platform.
    - Console output, socket traffic and the notifier calls are recorded
      as a trace of [event]s, in program order; the timestamps of the
      printed lines are left out.
    - [print] and [socket.send] are taken to succeed; the encoding of
      the text handed to [socket.send] is part of the model, and fails
      on a surrogate code point (section _Encoding what is sent_).
    - The helpers of the notifier ([copy_to_clipboard],
      [auto_detect_pid], [focus_and_type]) are modelled in [Notifier],
      with the answers of the operating system as arguments. *)

From Stdlib Require Import NArith ZArith Strings.Byte Strings.Ascii.
From stdpp Require Import gmap strings list.

Local Open Scope N_scope.

(** ** Text *)

Abbreviation str := (list N).

(** An ASCII literal of the source as a [str]. *)
Definition text (s : string) : str :=
  map N_of_ascii (String.list_ascii_of_string s).

(** [s.startswith(p)] *)
Fixpoint startswith (s p : str) {struct p} : bool :=
  match p, s with
  | [], _ => true
  | _ :: _, [] => false
  | c :: p', d :: s' => (c =? d) && startswith s' p'
  end.

(** [s.find(sep)]: index of the first occurrence, [None] for -1. *)
Fixpoint find (s sep : str) : option nat :=
  if startswith s sep then Some 0%nat
  else match s with
       | [] => None
       | _ :: s' => S <$> find s' sep
       end.

(** [s.rfind(sep)]: index of the last occurrence. *)
Fixpoint rfind (s sep : str) : option nat :=
  match s with
  | [] => if startswith [] sep then Some 0%nat else None
  | _ :: s' =>
      match rfind s' sep with
      | Some i => Some (S i)
      | None => if startswith s sep then Some 0%nat else None
      end
  end.

(** [sep in s] *)
Definition contains (s sep : str) : bool :=
  match find s sep with Some _ => true | None => false end.

(** [s.split(sep, 1)]: one part when [sep] does not occur, else the text
    before the first occurrence and the text after it. *)
Definition split1 (s sep : str) : list str :=
  match find s sep with
  | Some i => [take i s; drop (i + length sep) s]
  | None => [s]
  end.

(** [s.rsplit(sep, 1)]: the same around the last occurrence. *)
Definition rsplit1 (s sep : str) : list str :=
  match rfind s sep with
  | Some i => [take i s; drop (i + length sep) s]
  | None => [s]
  end.

Definition CRLF : str := [13; 10].

(** ** Decoding received bytes

    [bytes.decode('utf-8', errors='ignore')]: CPython's UTF-8 decoder,
    which on an ill-formed sequence drops the bytes of the error range
    and resumes after them. The error range is the start byte alone when
    it cannot start a sequence or its first continuation byte is wrong,
    the bytes read so far when a later continuation byte is wrong, and
    every remaining byte when the input ends inside a sequence. *)

Definition is_continuation (c : N) : bool := (0x80 <=? c) && (c <? 0xC0).

(** Second byte of a three-byte sequence: E0 excludes overlong forms,
    ED excludes surrogates. *)
Definition second_of_3 (c c2 : N) : bool :=
  is_continuation c2 &&
  negb (if c2 <? 0xA0 then c =? 0xE0 else c =? 0xED).

(** Second byte of a four-byte sequence: F0 excludes overlong forms,
    F4 excludes code points above 10FFFF. *)
Definition second_of_4 (c c2 : N) : bool :=
  is_continuation c2 &&
  negb (if c2 <? 0x90 then c =? 0xF0 else c =? 0xF4).

Definition low6 (c : N) : N := N.land c 0x3F.

Definition cp2 (c c2 : N) : N :=
  N.lor (N.shiftl (N.land c 0x1F) 6) (low6 c2).

Definition cp3 (c c2 c3 : N) : N :=
  N.lor (N.shiftl (N.land c 0x0F) 12)
        (N.lor (N.shiftl (low6 c2) 6) (low6 c3)).

Definition cp4 (c c2 c3 c4 : N) : N :=
  N.lor (N.shiftl (N.land c 0x07) 18)
        (N.lor (N.shiftl (low6 c2) 12)
               (N.lor (N.shiftl (low6 c3) 6) (low6 c4))).

Fixpoint decode (bs : list byte) : str :=
  match bs with
  | [] => []
  | b :: bs1 =>
      let c := Byte.to_N b in
      if c <? 0x80 then c :: decode bs1
      else if c <? 0xC2 then decode bs1
      else if c <? 0xE0 then
        match bs1 with
        | [] => []
        | b2 :: bs2 =>
            let c2 := Byte.to_N b2 in
            if is_continuation c2 then cp2 c c2 :: decode bs2
            else decode bs1
        end
      else if c <? 0xF0 then
        match bs1 with
        | [] => []
        | b2 :: bs2 =>
            let c2 := Byte.to_N b2 in
            if negb (second_of_3 c c2) then decode bs1
            else
              match bs2 with
              | [] => []
              | b3 :: bs3 =>
                  let c3 := Byte.to_N b3 in
                  if is_continuation c3 then cp3 c c2 c3 :: decode bs3
                  else decode bs2
              end
        end
      else if c <? 0xF5 then
        match bs1 with
        | [] => []
        | b2 :: bs2 =>
            let c2 := Byte.to_N b2 in
            if negb (second_of_4 c c2) then decode bs1
            else
              match bs2 with
              | [] => []
              | b3 :: bs3 =>
                  let c3 := Byte.to_N b3 in
                  if negb (is_continuation c3) then decode bs2
                  else
                    match bs3 with
                    | [] => []
                    | b4 :: bs4 =>
                        let c4 := Byte.to_N b4 in
                        if is_continuation c4
                        then cp4 c c2 c3 c4 :: decode bs4
                        else decode bs3
                    end
              end
        end
      else decode bs1
  end.

(** The UTF-8 bytes of an ASCII literal. *)
Definition ascii_bytes (s : string) : list byte :=
  map byte_of_ascii (String.list_ascii_of_string s).

(** ** Encoding what is sent

    [s.encode('utf-8')] raises [UnicodeEncodeError] exactly when [s]
    holds a surrogate code point (U+D800 to U+DFFF); every other text is
    encoded. A value of the environment holds such code points where its
    bytes are not UTF-8 ([os.getenv] decodes with [surrogateescape]). *)

Definition is_surrogate (c : N) : bool := (0xD800 <=? c) && (c <=? 0xDFFF).

(** Whether [s.encode('utf-8')] returns. *)
Definition encodable (s : str) : bool :=
  forallb (fun c => negb (is_surrogate c)) s.

(** ** The platform *)

Record Platform := {
  (** [str.upper] on one code point outside ASCII (full case mapping) *)
  uni_upper : N -> str;
  (** whether a code point outside ASCII is a regex word character *)
  uni_word : N -> bool;
  (** [re.compile] on a pattern given in [CODE_REGEX]: [None] when it is
      rejected, else what [finditer] yields on a subject *)
  re_compile : str -> option (str -> list str);
  (** [int] on a string: [None] for [ValueError] *)
  py_int : str -> option Z;
  (** whether one of the clipboard back ends accepts the text *)
  clipboard_backend : str -> bool
}.

(** [str.isspace] on one code point, as used by [str.strip]. *)
Definition isspace (c : N) : bool :=
  ((0x09 <=? c) && (c <=? 0x0D)) || ((0x1C <=? c) && (c <=? 0x20)) ||
  (c =? 0x85) || (c =? 0xA0) || (c =? 0x1680) ||
  ((0x2000 <=? c) && (c <=? 0x200A)) || (c =? 0x2028) || (c =? 0x2029) ||
  (c =? 0x202F) || (c =? 0x205F) || (c =? 0x3000).

Fixpoint lstrip (s : str) : str :=
  match s with
  | c :: s' => if isspace c then lstrip s' else s
  | [] => []
  end.

(** [s.strip()] *)
Definition strip (s : str) : str := rev (lstrip (rev (lstrip s))).

Section Matcher.
Context (P : Platform).

Definition upper_char (c : N) : str :=
  if (0x61 <=? c) && (c <=? 0x7A) then [c - 0x20]
  else if c <? 0x80 then [c]
  else uni_upper P c.

(** [s.upper()] *)
Definition upper (s : str) : str := flat_map upper_char s.

(** [\w] on a [str] subject *)
Definition is_word (c : N) : bool :=
  if c <? 0x80 then
    ((0x30 <=? c) && (c <=? 0x39)) || ((0x41 <=? c) && (c <=? 0x5A)) ||
    ((0x61 <=? c) && (c <=? 0x7A)) || (c =? 0x5F)
  else uni_word P c.

(** *** The pattern language of the default pattern

    Word boundary, character set, literal character, concatenation and
    counted repetition: no construct of it backtracks, so a match at a
    position is a function of the position. *)
Inductive regex :=
| Boundary
| CharSet (ranges : list (N * N))
| Char (c : N)
| Cat (r1 r2 : regex)
| Times (r : regex) (n : nat).

Definition in_ranges (c : N) (ranges : list (N * N)) : bool :=
  existsb (fun r => (fst r <=? c) && (c <=? snd r)) ranges.

Definition word_at (subj : str) (i : nat) : bool :=
  match subj !! i with Some c => is_word c | None => false end.

(** [\b] at [pos]: exactly one side is a word character. *)
Definition boundary_at (subj : str) (pos : nat) : bool :=
  xorb (match pos with O => false | S i => word_at subj i end)
       (word_at subj pos).

(** End position of the match of [r] that starts at [pos]. *)
Fixpoint match_at (r : regex) (subj : str) (pos : nat) : option nat :=
  match r with
  | Boundary => if boundary_at subj pos then Some pos else None
  | CharSet ranges =>
      match subj !! pos with
      | Some c => if in_ranges c ranges then Some (S pos) else None
      | None => None
      end
  | Char c =>
      match subj !! pos with
      | Some d => if c =? d then Some (S pos) else None
      | None => None
      end
  | Cat r1 r2 =>
      match match_at r1 subj pos with
      | Some p => match_at r2 subj p
      | None => None
      end
  | Times r n =>
      (fix times (k : nat) (p : nat) : option nat :=
         match k with
         | O => Some p
         | S k' =>
             match match_at r subj p with
             | Some p' => times k' p'
             | None => None
             end
         end) n pos
  end.

(** [r.finditer(subj)] as the list of the [m.group(0)]: the leftmost
    match at or after the scan position, then on from its end. The
    pattern of this file never matches the empty string; an empty
    match moves the scan one position on. *)
Fixpoint finditer_from (r : regex) (subj : str) (fuel pos : nat)
  : list str :=
  match fuel with
  | O => []
  | S fuel' =>
      match match_at r subj pos with
      | Some e =>
          take (e - pos) (drop pos subj)
            :: finditer_from r subj fuel' (Nat.max e (S pos))
      | None => finditer_from r subj fuel' (S pos)
      end
  end.

Definition finditer (r : regex) (subj : str) : list str :=
  finditer_from r subj (S (length subj)) 0.

(** [\b[A-Z0-9]{4}(?:-[A-Z0-9]{4}){3}\b] *)
Definition group4 : regex := Times (CharSet [(0x41, 0x5A); (0x30, 0x39)]) 4.

Definition default_regex : regex :=
  Cat Boundary
      (Cat group4
           (Cat (Times (Cat (Char 0x2D) group4) 3) Boundary)).

End Matcher.

(** A platform for closed examples: code points outside ASCII are
    caseless and not word characters, no user pattern compiles, no
    string is an integer, the clipboard works. *)
Definition ascii_platform : Platform :=
  {| uni_upper := fun c => [c];
     uni_word := fun _ => false;
     re_compile := fun _ => None;
     py_int := fun _ => None;
     clipboard_backend := fun _ => true |}.

(** ** Observable behaviour *)

Inductive message :=
| MissingEnv                        (* Missing required env vars ... *)
| BadToken                          (* TWITCH_OAUTH must start with oauth: *)
| WillAutoDetect                    (* AUTO_REDEEM=1 and EA_PID not provided ... *)
| BadPid                            (* EA_PID env invalid ... *)
| Connecting (nick : str)
| SelfTest (msg : str)
| SelfTestComplete
| Joined (channel : str)
| ConnectionReset
| Disconnected
| CodeDetected (code : str) (copied : bool)
| CodeRepeat (code : str).

Inductive event :=
| Print (m : message)
| SockConnect
| SockSend (data : str)
| CopyToClipboard (code : str)
| Beep
| FocusAndType (code : str).

Inductive exn :=
| OSError              (* raised by the socket *)
| PatternError         (* re.error *)
| UnicodeEncodeError.  (* raised by str.encode *)

(** How the process ends; [Blocked]: still waiting in [recv] when the
    recorded input ends. *)
Inductive outcome :=
| Exit (code : Z)
| Uncaught (e : exn)
| Blocked.

(** The exit code of the interpreter. *)
Definition exit_code (o : outcome) : option Z :=
  match o with
  | Exit c => Some c
  | Uncaught _ => Some 1%Z
  | Blocked => None
  end.

(** One call of [s.recv(4096)]. *)
Inductive recv_result :=
| Recv (data : list byte)
| RecvReset     (* ConnectionResetError *)
| RecvError.    (* any other OSError *)

Record World := {
  connect_ok : bool;
  recvs : list recv_result
}.

(** ** Module state *)

Record state := {
  seen_codes : gset str;
  trace : list event
}.

Definition emit (e : event) (st : state) : state :=
  {| seen_codes := seen_codes st; trace := trace st ++ [e] |}.

Definition init_state : state := {| seen_codes := ∅; trace := [] |}.

(** ** Configuration (lines 23-50) *)

Abbreviation environ := (gmap string str).

Definition getenv (env : environ) (name : string) (default : str) : str :=
  match env !! name with Some v => v | None => default end.

(** [os.getenv(name) == '1'] *)
Definition flag (env : environ) (name : string) : bool :=
  bool_decide (env !! name = Some (text "1")).

Definition nonempty (s : str) : bool :=
  match s with [] => false | _ :: _ => true end.

Record config := {
  NICK : str;
  TOKEN : str;
  CHANNEL : str;
  code_regex : str -> list str;   (* code_regex.finditer, group(0) of each *)
  AUTO_REDEEM : bool;
  EA_PID : option Z;
  SEND_ENTER : bool;
  DISABLE_CLIPBOARD : bool
}.

Section Program.
Context (P : Platform).

Definition channel_of (raw : str) : str :=
  if nonempty raw && negb (startswith raw (text "#"))
  then text "#" ++ raw else raw.

(** The module body up to [lock = threading.Lock()]: the configuration,
    or how the process ended, with what was printed. *)
Definition module_init (env : environ) : list event * (config + outcome) :=
  let nick := strip (getenv env "TWITCH_NICK" []) in
  let token := strip (getenv env "TWITCH_OAUTH" []) in
  let channel_raw := strip (getenv env "TWITCH_CHANNEL" []) in
  let channel := channel_of channel_raw in
  let auto_redeem := flag env "AUTO_REDEEM" in
  let ea_pid_env := env !! "EA_PID" in
  let ea_pid_given :=
    match ea_pid_env with Some v => nonempty v | None => false end in
  if negb (nonempty nick && nonempty token && nonempty channel) then
    ([Print MissingEnv], inr (Exit 1))
  else if negb (startswith token (text "oauth:")) then
    ([Print BadToken], inr (Exit 1))
  else
    let out1 :=
      if auto_redeem && negb ea_pid_given then [Print WillAutoDetect]
      else [] in
    let '(ea_pid, out2) :=
      match ea_pid_env with
      | Some v =>
          if nonempty v then
            match py_int P v with
            | Some n => (Some n, [])
            | None => (None, [Print BadPid])
            end
          else (None, [])
      | None => (None, [])
      end in
    let compiled :=
      match env !! "CODE_REGEX" with
      | Some pat => re_compile P pat
      | None => Some (finditer P default_regex)
      end in
    match compiled with
    | None => (out1 ++ out2, inr (Uncaught PatternError))
    | Some fi =>
        (out1 ++ out2,
         inl {| NICK := nick; TOKEN := token; CHANNEL := channel;
                code_regex := fi;
                AUTO_REDEEM := auto_redeem; EA_PID := ea_pid;
                SEND_ENTER := flag env "REDEEM_SEND_ENTER";
                DISABLE_CLIPBOARD := flag env "DISABLE_CLIPBOARD" |})
    end.

Section Configured.
Context (cfg : config).

(** The result of [copy_to_clipboard]. *)
Definition copied (code : str) : bool :=
  if DISABLE_CLIPBOARD cfg then false else clipboard_backend P code.

(** The [with lock:] block of [handle_code]: the new registry and
    the value of [first]. *)
Definition check_and_insert (code : str) (seen : gset str)
  : gset str * bool :=
  if bool_decide (code ∉ seen) then ({[code]} ∪ seen, true)
  else (seen, false).

Definition handle_code (code : str) (st : state) : state :=
  let '(seen, first) := check_and_insert code (seen_codes st) in
  let st := {| seen_codes := seen; trace := trace st |} in
  if first then
    let st := emit (CopyToClipboard code) st in
    let st := emit (Print (CodeDetected code (copied code))) st in
    let st := emit Beep st in
    if AUTO_REDEEM cfg then emit (FocusAndType code) st else st
  else emit (Print (CodeRepeat code)) st.

(** What the [for] of [process_message] iterates over:
    [code_regex.finditer(msg.upper())]. *)
Definition extract (msg : str) : list str :=
  code_regex cfg (upper P msg).

Definition process_message (msg : str) (st : state) : state :=
  foldl (fun st code => handle_code code st) st (extract msg).

(** [send(sock, msg)]: [(msg + '\r\n').encode('utf-8')] raises on a
    surrogate, before anything is handed to the socket; otherwise the
    encoded text is sent. *)
Definition send (msg : str) (st : state) : state + exn :=
  if encodable (msg ++ CRLF) then inl (emit (SockSend (msg ++ CRLF)) st)
  else inr UnicodeEncodeError.

Definition PONG : str := text "PONG :tmi.twitch.tv".

(** The body of the inner loop (lines 250-258) on one line. The reply
    is a literal of ASCII characters: its [send] always returns (lemma
    [send_PONG]), and the second branch of that match is never taken. *)
Definition handle_line (line : str) (st : state) : state :=
  if negb (nonempty line) then st
  else if startswith line (text "PING") then
    match send PONG st with
    | inl st' => st'
    | inr _ => st
    end
  else
    match split1 line (text " :") with
    | [_; payload] => process_message payload st
    | _ => st
    end.
End Configured.
End Program.

(** ** The line loop (lines 248-249)

    [while '\r\n' in buf: line, buf = buf.split('\r\n', 1); body].
    Every iteration shortens the buffer, so its length bounds their
    number. Under the loop condition the split has two parts; the other
    shapes of the match are never taken. *)
Section Lines.
Context {St : Type} (body : str -> St -> St).

Fixpoint lines_loop (fuel : nat) (buf : str) (st : St) : str * St :=
  match fuel with
  | O => (buf, st)
  | S fuel' =>
      if contains buf CRLF then
        match split1 buf CRLF with
        | [line; rest] => lines_loop fuel' rest (body line st)
        | _ => (buf, st)
        end
      else (buf, st)
  end.

Definition drain (buf : str) (st : St) : str * St :=
  lines_loop (length buf) buf st.
End Lines.

(** The body that only records the line it is given. *)
Definition collect (line : str) (ls : list str) : list str := ls ++ [line].

(** The framer alone: the lines handed to the body, in order. *)
Definition frame (buf : str) : str * list str := drain collect buf [].

(** ** The receive loop (lines 237-258) *)

(** Why the receive loop was left; [Starved]: the recorded input ended. *)
Inductive stop := Reset | Closed | Failed | Starved.

Section Receive.
Context {St : Type} (body : str -> St -> St).

Fixpoint recv_loop (rs : list recv_result) (buf : str) (st : St)
  : str * St * stop :=
  match rs with
  | [] => (buf, st, Starved)
  | RecvReset :: _ => (buf, st, Reset)
  | RecvError :: _ => (buf, st, Failed)
  | Recv bytes :: rs' =>
      let data := decode bytes in
      if negb (nonempty data) then (buf, st, Closed)
      else
        let '(buf', st') := drain body (buf ++ data) st in
        recv_loop rs' buf' st'
  end.
End Receive.

(** The lines the framer yields on a sequence of transport chunks. *)
Definition framed (chunks : list (list byte)) : list str :=
  (recv_loop collect (map Recv chunks) [] []).1.2.

Section Main.
Context (P : Platform).

Definition TEST_MESSAGE_default : str := text "TEST-CODE-1234-ABCD".

Definition main (cfg : config) (env : environ) (w : World) (st : state)
  : state * outcome :=
  let st := emit (Print (Connecting (NICK cfg))) st in
  if flag env "NO_CONNECT" then
    let test_msg := getenv env "TEST_MESSAGE" TEST_MESSAGE_default in
    let st := emit (Print (SelfTest test_msg)) st in
    let st := process_message P cfg test_msg st in
    let st := emit (Print SelfTestComplete) st in
    (st, Exit 0)
  else
    let st := emit SockConnect st in
    if negb (connect_ok w) then (st, Uncaught OSError)
    else
      match send (text "PASS " ++ TOKEN cfg) st with
      | inr e => (st, Uncaught e)
      | inl st =>
      match send (text "NICK " ++ NICK cfg) st with
      | inr e => (st, Uncaught e)
      | inl st =>
      match send (text "JOIN " ++ CHANNEL cfg) st with
      | inr e => (st, Uncaught e)
      | inl st =>
          let st := emit (Print (Joined (CHANNEL cfg))) st in
          let '(_, st, why) :=
            recv_loop (handle_line P cfg) (recvs w) [] st in
          match why with
          | Reset => (emit (Print ConnectionReset) st, Exit 0)
          | Closed => (emit (Print Disconnected) st, Exit 0)
          | Failed => (st, Uncaught OSError)
          | Starved => (st, Blocked)
          end
      end end end.

(** The whole script: module body, then [main()]. *)
Definition program (env : environ) (w : World) : state * outcome :=
  match module_init P env with
  | (out, inr o) => ({| seen_codes := ∅; trace := out |}, o)
  | (out, inl cfg) => main cfg env w {| seen_codes := ∅; trace := out |}
  end.
End Main.

(** ** Notions used by the properties *)

(** [st'] continues [st]: more events, no code forgotten. *)
Definition extends (st st' : state) : Prop :=
  trace st `prefix_of` trace st' /\ seen_codes st ⊆ seen_codes st'.

(** The payload the loop body hands to [process_message], if any. *)
Definition forwarded (line : str) : option str :=
  match split1 line (text " :") with
  | [_; payload] => Some payload
  | _ => None
  end.

(** The payload as the comment above the split words it: the text after
    the last occurrence of the delimiter. *)
Definition payload_after_last (line : str) : option str :=
  match rsplit1 line (text " :") with
  | [_; payload] => Some payload
  | _ => None
  end.

(** Lines with their terminators, one after the other. *)
Definition join_lines (ls : list str) : str :=
  concat (map (fun l => l ++ CRLF) ls).

Definition no_crlf (s : str) : Prop := find s CRLF = None.

(** The three handshake lines, as handed to [send]. *)
Definition handshake (cfg : config) : list str :=
  [text "PASS " ++ TOKEN cfg; text "NICK " ++ NICK cfg;
   text "JOIN " ++ CHANNEL cfg].

(** Every handshake line can be encoded: no [send] of lines 233-235
    raises. *)
Definition handshake_encodable (cfg : config) : bool :=
  forallb (fun msg => encodable (msg ++ CRLF)) (handshake cfg).

(** The state in which the receive loop starts: banner, connection,
    the three handshake lines, the join line. *)
Definition joined (cfg : config) (out : list event) : state :=
  {| seen_codes := ∅;
     trace := out ++
       [Print (Connecting (NICK cfg)); SockConnect;
        SockSend (text "PASS " ++ TOKEN cfg ++ CRLF);
        SockSend (text "NICK " ++ NICK cfg ++ CRLF);
        SockSend (text "JOIN " ++ CHANNEL cfg ++ CRLF);
        Print (Joined (CHANNEL cfg))] |}.

(** The values of [first] over a sequence of [handle_code] calls, with
    the registry they leave. *)
Fixpoint classify_seq (codes : list str) (seen : gset str)
  : gset str * list bool :=
  match codes with
  | [] => (seen, [])
  | c :: codes' =>
      let '(seen1, first) := check_and_insert c seen in
      let '(seen2, firsts) := classify_seq codes' seen1 in
      (seen2, first :: firsts)
  end.

(** What [handle_code] does after the block, given [first]. *)
Definition reaction (P : Platform) (cfg : config) (c : str) (first : bool)
  : list event :=
  if first then
    [CopyToClipboard c; Print (CodeDetected c (copied P cfg c)); Beep]
      ++ (if AUTO_REDEEM cfg then [FocusAndType c] else [])
  else [Print (CodeRepeat c)].

(** A sequence of [handle_code] calls. *)
Definition handle_codes (P : Platform) (cfg : config) (codes : list str)
  (st : state) : state :=
  foldl (fun st c => handle_code P cfg c st) st codes.

(** ** Concurrent callers of [handle_code]

    The block under [with lock:] as four atomic steps of a caller:
    acquire the lock, test [code not in seen_codes], add the code (only
    when the test succeeded), release the lock. Any number of callers
    take their steps in any order. *)
Module Interleaving.

Inductive pc :=
| AtLock                    (* before [with lock:] *)
| AtCheck                   (* holding the lock, before the test *)
| AtAdd                     (* test succeeded, before [seen_codes.add] *)
| AtRelease (first : bool)  (* leaving the block *)
| Finished (first : bool).  (* past the block, [first] decided *)

Record thread := { code : str; at_pc : pc }.

Record sys := {
  pool : list thread;
  registry : gset str;
  held : bool
}.

Definition move (t : thread) (p : pc) : thread :=
  {| code := code t; at_pc := p |}.

Inductive step : sys -> sys -> Prop :=
| acquire s i t :
    pool s !! i = Some t -> at_pc t = AtLock -> held s = false ->
    step s {| pool := <[i := move t AtCheck]> (pool s);
              registry := registry s; held := true |}
| check s i t :
    pool s !! i = Some t -> at_pc t = AtCheck ->
    step s {| pool :=
                <[i := move t (if bool_decide (code t ∉ registry s)
                               then AtAdd else AtRelease false)]> (pool s);
              registry := registry s; held := held s |}
| add s i t :
    pool s !! i = Some t -> at_pc t = AtAdd ->
    step s {| pool := <[i := move t (AtRelease true)]> (pool s);
              registry := {[code t]} ∪ registry s; held := held s |}
| release s i t first :
    pool s !! i = Some t -> at_pc t = AtRelease first ->
    step s {| pool := <[i := move t (Finished first)]> (pool s);
              registry := registry s; held := false |}.

(** All callers before the block, the lock free. *)
Definition start (codes : list str) (seen : gset str) : sys :=
  {| pool := map (fun c => {| code := c; at_pc := AtLock |}) codes;
     registry := seen; held := false |}.

Definition in_section (p : pc) : bool :=
  match p with AtCheck | AtAdd | AtRelease _ => true | _ => false end.

(** The caller found the code absent and added it. *)
Definition won (p : pc) : bool :=
  match p with AtRelease true | Finished true => true | _ => false end.

Definition past_check (p : pc) : bool :=
  match p with AtRelease _ | Finished _ => true | _ => false end.

Definition finished (p : pc) : bool :=
  match p with Finished _ => true | _ => false end.

(** What holds in every state the callers can reach from a registry
    [seen0]. *)
Record inv (seen0 : gset str) (s : sys) : Prop := {
  inv_free : held s = false ->
    forall i t, pool s !! i = Some t -> in_section (at_pc t) = false;
  inv_mutex : forall i j ti tj,
    pool s !! i = Some ti -> pool s !! j = Some tj ->
    in_section (at_pc ti) = true -> in_section (at_pc tj) = true -> i = j;
  inv_grows : seen0 ⊆ registry s;
  inv_seen : forall c, c ∈ registry s ->
    c ∈ seen0 \/
    exists i t, pool s !! i = Some t /\ code t = c /\ won (at_pc t) = true;
  inv_won_once : forall i j ti tj,
    pool s !! i = Some ti -> pool s !! j = Some tj ->
    won (at_pc ti) = true -> won (at_pc tj) = true ->
    code ti = code tj -> i = j;
  inv_won_fresh : forall i t,
    pool s !! i = Some t -> won (at_pc t) = true -> code t ∉ seen0;
  inv_add : forall i t,
    pool s !! i = Some t -> at_pc t = AtAdd -> code t ∉ registry s;
  inv_past : forall i t,
    pool s !! i = Some t -> past_check (at_pc t) = true ->
    code t ∈ registry s
}.

Definition reachable (codes : list str) (seen0 : gset str) (s : sys) : Prop :=
  rtc step (start codes seen0) s.

Definition waiting (c : str) : thread := {| code := c; at_pc := AtLock |}.

Definition settled (c : str) (first : bool) : thread :=
  {| code := c; at_pc := Finished first |}.

(** The state after the callers ran one after the other. *)
Definition in_order (codes : list str) (seen : gset str) : sys :=
  {| pool := zip_with settled codes (classify_seq codes seen).2;
     registry := (classify_seq codes seen).1; held := false |}.

End Interleaving.

(** ** Notions used by the further properties *)

(** The data handed to [sock.send], in order. *)
Definition sends (tr : list event) : list str :=
  omap (fun e => match e with SockSend d => Some d | _ => None end) tr.

(** The codes handed to [copy_to_clipboard], in order: one per run of
    the first-seen branch of [handle_code]. *)
Definition announced (tr : list event) : list str :=
  omap (fun e => match e with CopyToClipboard c => Some c | _ => None end) tr.

(** The number of [beep()] calls. *)
Definition beeps (tr : list event) : nat :=
  length (omap (fun e => match e with Beep => Some tt | _ => None end) tr).

(** The codes handed to [focus_and_type], in order. *)
Definition automated (tr : list event) : list str :=
  omap (fun e => match e with FocusAndType c => Some c | _ => None end) tr.


(** The reply of the loop body to one line, if any. *)
Definition reply_to (line : str) : list str :=
  if startswith line (text "PING") then [PONG ++ CRLF] else [].

(** A character of the class [[A-Z0-9]]. *)
Definition code_char (c : N) : bool :=
  in_ranges c [(0x41, 0x5A); (0x30, 0x39)].

Definition is_group (g : str) : bool :=
  bool_decide (length g = 4%nat) && forallb code_char g.

(** The shape [XXXX-XXXX-XXXX-XXXX]. *)
Definition is_code (c : str) : bool :=
  bool_decide (length c = 19%nat) &&
  is_group (take 4 c) && bool_decide (c !! 4%nat = Some 0x2D) &&
  is_group (take 4 (drop 5 c)) && bool_decide (c !! 9%nat = Some 0x2D) &&
  is_group (take 4 (drop 10 c)) && bool_decide (c !! 14%nat = Some 0x2D) &&
  is_group (take 4 (drop 15 c)).

(** The texts [ms] occur in [s] one after the other, without overlap. *)
Inductive occur_in_order : list str -> str -> Prop :=
| occur_none s : occur_in_order [] s
| occur_next pre m ms rest :
    occur_in_order ms rest -> occur_in_order (m :: ms) (pre ++ m ++ rest).

Definition is_print (e : event) : bool :=
  match e with Print _ => true | _ => false end.

(** The books of a state balance: every code was announced once, the
    registry holds the announced codes, every announcement had its beep,
    and the automation was called for the announced codes when enabled
    and never otherwise. *)
Definition balanced (auto : bool) (st : state) : Prop :=
  NoDup (announced (trace st)) /\
  list_to_set (announced (trace st)) = seen_codes st /\
  beeps (trace st) = length (announced (trace st)) /\
  automated (trace st) = if auto then announced (trace st) else [].

(** A chunk whose decoded text is not empty. *)
Definition decodable (c : list byte) : Prop := nonempty (decode c) = true.

(** A read that does not end the receive loop. *)
Definition goes_on (r : recv_result) : Prop :=
  exists c, r = Recv c /\ decodable c.

(** ** The notifier's helpers (lines 65-198)

    [copy_to_clipboard], [auto_detect_pid] and [focus_and_type] with
    what the operating system answers as an argument. Calls into the
    window system and [send_keys] are taken to return; the failures the
    code provides for (a missing module, an exception inside a [try]) are
    part of the answers. *)
Module Notifier.

(** [platform.system()] *)
Inductive system := Windows | Darwin | Linux | OtherSystem.

(** A helper process run to completion, or the exception on the way. *)
Inductive run := Raised | Returned (returncode : Z).

(** The Win32 block: [OpenClipboard] refused, an exception inside the
    outer [try], or all calls made. *)
Inductive win32 := OpenRefused | Win32Raised | Win32Done.

Record clipboard_world := {
  cb_system : system;
  tk_ok : bool;        (* the tkinter block ran without exception *)
  win32_result : win32;
  pbcopy : run;
  xclip : run;
  xsel : run
}.

Inductive attempt := TryTk | TryWin32 | TryPbcopy | TryXclip | TryXsel.

Definition run_ok (r : run) : bool :=
  match r with Returned rc => bool_decide (rc = 0%Z) | Raised => false end.

(** [copy_to_clipboard(text)]: the result and the back ends tried. *)
Definition copy_to_clipboard (disable : bool) (cw : clipboard_world)
  : bool * list attempt :=
  if disable then (false, [])
  else if tk_ok cw then (true, [TryTk])
  else
    match cb_system cw with
    | Windows =>
        match win32_result cw with
        | Win32Done => (true, [TryTk; TryWin32])
        | _ => (false, [TryTk; TryWin32])
        end
    | Darwin =>
        match pbcopy cw with
        | Returned rc => (bool_decide (rc = 0%Z), [TryTk; TryPbcopy])
        | Raised => (false, [TryTk; TryPbcopy])
        end
    | Linux =>
        if run_ok (xclip cw) then (true, [TryTk; TryXclip])
        else if run_ok (xsel cw) then (true, [TryTk; TryXclip; TryXsel])
        else (false, [TryTk; TryXclip; TryXsel])
    | OtherSystem => (false, [TryTk])
    end.

(** One element of [psutil.process_iter(['pid', 'name'])]: a process
    that raises [NoSuchProcess] or [AccessDenied] when looked at, or its
    pid and its name ([None] when psutil has none). *)
Inductive process := Vanished | Process (pid : Z) (name : option str).

Section Lower.
(** [str.lower] on one code point outside ASCII. *)
Context (uni_lower : N -> str).

Definition lower_char (c : N) : str :=
  if (0x41 <=? c) && (c <=? 0x5A) then [c + 0x20]
  else if c <? 0x80 then [c]
  else uni_lower c.

(** [s.lower()] *)
Definition lower (s : str) : str := flat_map lower_char s.

(** The test of the loop body of [auto_detect_pid]. *)
Definition is_ea_desktop (p : process) : option Z :=
  match p with
  | Process pid (Some name) =>
      if nonempty name && bool_decide (lower name = text "eadesktop.exe")
      then Some pid else None
  | _ => None
  end.

(** [auto_detect_pid()]; [psutil]: whether the module can be imported. *)
Definition auto_detect_pid (psutil : bool) (procs : list process)
  : option Z :=
  if psutil then head (omap is_ea_desktop procs) else None.
End Lower.

(** A top-level window as [EnumWindows] presents it. *)
Record window := { hwnd : Z; visible : bool; owner : Z }.

Record desktop := {
  detected : option Z;      (* what [auto_detect_pid()] returns *)
  dt_system : system;
  pywin32 : bool;           (* win32gui, win32con, win32process import *)
  windows : list window;    (* in enumeration order *)
  focus_ok : bool;          (* ShowWindow and SetForegroundWindow return *)
  pywinauto : bool          (* pywinauto.keyboard imports *)
}.

Inductive auto_message :=
| AutoDetected (pid : Z) | NotDetected | NotWindows | NoPywin32
| NoWindow (pid : Z) | NoFocus | NoPywinauto | AutoEntered (code : str).

Inductive action :=
| Say (m : auto_message)
| Detect                    (* auto_detect_pid() *)
| Focus (h : Z)             (* ShowWindow, SetForegroundWindow *)
| Sleep
| SendKeys (keys : str).

(** The enumeration with [enum_handler]: the first visible window of
    the process. *)
Definition target_window (pid : Z) (ws : list window) : option Z :=
  hwnd <$> head (filter (fun w => visible w = true /\ owner w = pid) ws).

(** [not x] for an [int] or [None]. *)
Definition falsy (x : option Z) : bool :=
  match x with None => true | Some n => bool_decide (n = 0%Z) end.

(** [focus_and_type(code)] from the value of the global [EA_PID]: the
    new value of the global and what was done. *)
Definition focus_and_type (send_enter : bool) (d : desktop) (code : str)
  (ea_pid : option Z) : option Z * list action :=
  let '(ea_pid', pre, go) :=
    match ea_pid with
    | Some _ => (ea_pid, [], true)
    | None =>
        if falsy (detected d) then
          (detected d, [Detect; Say NotDetected], false)
        else
          (detected d,
           [Detect;
            Say (AutoDetected (default 0%Z (detected d)))], true)
    end in
  if negb go then (ea_pid', pre)
  else
    let pid := default 0%Z ea_pid' in
    match dt_system d with
    | Windows =>
        if negb (pywin32 d) then (ea_pid', pre ++ [Say NoPywin32])
        else if falsy (target_window pid (windows d)) then
          (ea_pid', pre ++ [Say (NoWindow pid)])
        else
          let h := default 0%Z (target_window pid (windows d)) in
          if negb (focus_ok d) then
            (ea_pid', pre ++ [Focus h; Say NoFocus])
          else if negb (pywinauto d) then
            (ea_pid', pre ++ [Focus h; Sleep; Say NoPywinauto])
          else
            (ea_pid',
             pre ++ [Focus h; Sleep; SendKeys (text "^a{BACKSPACE}");
                     SendKeys code]
                 ++ (if send_enter then [SendKeys (text "{ENTER}")] else [])
                 ++ [Say (AutoEntered code)])
    | _ => (ea_pid', pre ++ [Say NotWindows])
    end.

(** The keys sent, in order. *)
Definition keys (acts : list action) : list str :=
  omap (fun a => match a with SendKeys k => Some k | _ => None end) acts.

(** Calls of [focus_and_type] one after the other, each with what the
    desktop answers at that time. *)
Fixpoint focus_and_type_all (send_enter : bool)
  (calls : list (desktop * str)) (ea_pid : option Z)
  : option Z * list (list action) :=
  match calls with
  | [] => (ea_pid, [])
  | (d, code) :: calls' =>
      let '(ea_pid1, acts) := focus_and_type send_enter d code ea_pid in
      let '(ea_pid2, rest) := focus_and_type_all send_enter calls' ea_pid1 in
      (ea_pid2, acts :: rest)
  end.

End Notifier.

(** The steps a caller of [handle_code] still has to take before it
    is past the block, at most. *)
Definition steps_left (p : Interleaving.pc) : nat :=
  match p with
  | Interleaving.AtLock => 4
  | Interleaving.AtCheck => 3
  | Interleaving.AtAdd => 2
  | Interleaving.AtRelease _ => 1
  | Interleaving.Finished _ => 0
  end.

Definition work_left (s : Interleaving.sys) : nat :=
  sum_list (map (fun t => steps_left (Interleaving.at_pc t))
              (Interleaving.pool s)).

(** The codes of the printed detection and repeat lines, in order. *)
Definition reported (tr : list event) : list str :=
  omap (fun e => match e with
                 | Print (CodeDetected c _) | Print (CodeRepeat c) => Some c
                 | _ => None
                 end) tr.

(** The matches in the payload of a line, for a line that has one. *)
Definition matches_of_line (P : Platform) (cfg : config) (line : str)
  : list str :=
  if startswith line (text "PING") then []
  else match forwarded line with
       | Some payload => extract P cfg payload
       | None => []
       end.

(** ** Sample inputs

    A complete environment and the configuration the module body
    derives from it on [ascii_platform]. *)

Definition sample_env : environ :=
  {[ "TWITCH_NICK" := text "bot"; "TWITCH_OAUTH" := text "oauth:abc";
     "TWITCH_CHANNEL" := text "c" ]}.

Definition sample_config : config :=
  {| NICK := text "bot"; TOKEN := text "oauth:abc"; CHANNEL := text "#c";
     code_regex := finditer ascii_platform default_regex;
     AUTO_REDEEM := false; EA_PID := None; SEND_ENTER := false;
     DISABLE_CLIPBOARD := false |}.

(** The same with a channel name that holds a lone surrogate
    (['c\udcff'], a byte of the environment that is not UTF-8). *)
Definition surrogate_env : environ :=
  <["TWITCH_CHANNEL" := text "c" ++ [0xDCFF]]> sample_env.

Definition surrogate_config : config :=
  {| NICK := text "bot"; TOKEN := text "oauth:abc";
     CHANNEL := text "#c" ++ [0xDCFF];
     code_regex := finditer ascii_platform default_regex;
     AUTO_REDEEM := false; EA_PID := None; SEND_ENTER := false;
     DISABLE_CLIPBOARD := false |}.

(** * Properties *)

(** ** Searching and splitting *)

Lemma startswith_app s t p :
  startswith s p = true -> startswith (s ++ t) p = true.
Proof.
  revert s; induction p as [|c p IH]; intros [|d s]; simpl; try done.
  intros [-> H]%andb_prop. by rewrite IH.
Qed.

Lemma startswith_app_inv s t p :
  (length p <= length s)%nat ->
  startswith (s ++ t) p = true -> startswith s p = true.
Proof.
  revert s; induction p as [|c p IH]; intros [|d s]; simpl; try done.
  - lia.
  - intros Hl [-> H]%andb_prop. rewrite IH; [done | lia | done].
Qed.

Lemma startswith_length s p :
  startswith s p = true -> (length p <= length s)%nat.
Proof.
  revert s; induction p as [|c p IH]; intros [|d s]; simpl; try done.
  - lia.
  - intros [_ H]%andb_prop. apply IH in H. lia.
Qed.

Lemma find_bound s sep i :
  find s sep = Some i -> (i + length sep <= length s)%nat.
Proof.
  revert i; induction s as [|c s IH]; intros i; simpl.
  - destruct (startswith [] sep) eqn:E; [|done].
    intros [= <-]. by apply startswith_length in E.
  - destruct (startswith (c :: s) sep) eqn:E.
    + intros [= <-]. by apply startswith_length in E.
    + destruct (find s sep) as [j|] eqn:F; [|done].
      intros [= <-]. specialize (IH j eq_refl). simpl. lia.
Qed.

(** The first occurrence stays the first one when text is appended. *)
Lemma find_app_l s t sep i :
  find s sep = Some i -> find (s ++ t) sep = Some i.
Proof.
  revert i; induction s as [|c s IH]; intros i; simpl.
  - destruct (startswith [] sep) eqn:E; [|done].
    intros [= <-]. destruct sep; [|done]. by destruct t.
  - destruct (startswith (c :: s) sep) eqn:E.
    + intros [= <-].
      change (c :: s ++ t) with ((c :: s) ++ t).
      by rewrite (startswith_app _ t _ E).
    + destruct (find s sep) as [j|] eqn:F; [|done].
      intros [= <-].
      destruct (startswith (c :: s ++ t) sep) eqn:E'.
      * apply find_bound in F.
        change (c :: s ++ t) with ((c :: s) ++ t) in E'.
        apply startswith_app_inv in E'; [congruence | simpl; lia].
      * by rewrite (IH j eq_refl).
Qed.

Lemma find_cons c s sep :
  find (c :: s) sep =
  if startswith (c :: s) sep then Some 0%nat else S <$> find s sep.
Proof. reflexivity. Qed.

(** A separator of two different characters that does not occur in [l]
    is first found right after [l]. *)
Lemma find_after a b l rest :
  a <> b -> find l [a; b] = None ->
  find (l ++ a :: b :: rest) [a; b] = Some (length l).
Proof.
  intros Hab. induction l as [|c l IH]; intros Hnone.
  - simpl. by rewrite !N.eqb_refl.
  - rewrite find_cons in Hnone.
    destruct (startswith (c :: l) [a; b]) eqn:E; [done|].
    destruct (find l [a; b]) eqn:F; [done|].
    change ((c :: l) ++ a :: b :: rest) with (c :: (l ++ a :: b :: rest)).
    rewrite find_cons, (IH eq_refl).
    assert (startswith (c :: l ++ a :: b :: rest) [a; b] = false) as ->; [|done].
    destruct l as [|d l]; simpl in *; [|done].
    apply N.eqb_neq in Hab. rewrite (N.eqb_sym b a), Hab.
    by rewrite andb_false_r.
Qed.

Lemma contains_find s sep :
  contains s sep = bool_decide (is_Some (find s sep)).
Proof.
  unfold contains. destruct (find s sep); symmetry.
  - by apply bool_decide_eq_true_2.
  - apply bool_decide_eq_false_2. by intros [? ?].
Qed.

Lemma split1_found s sep i :
  find s sep = Some i ->
  contains s sep = true /\
  split1 s sep = [take i s; drop (i + length sep) s].
Proof. intros H. unfold contains, split1. by rewrite H. Qed.

Lemma contains_none s sep : find s sep = None -> contains s sep = false.
Proof. intros H. unfold contains. by rewrite H. Qed.

(** ** The line loop *)

Section LinesFacts.
Context {St : Type} (body : str -> St -> St).

(** Fuel beyond the length of the buffer is never used. *)
Lemma lines_loop_fuel n m buf st :
  (length buf <= n)%nat -> (length buf <= m)%nat ->
  lines_loop body n buf st = lines_loop body m buf st.
Proof.
  revert m buf st. induction n as [|n IH]; intros [|m] buf st Hn Hm;
    simpl; try done.
  - destruct buf; [done | simpl in Hn; lia].
  - destruct buf; [done | simpl in Hm; lia].
  - destruct (find buf CRLF) as [i|] eqn:F.
    + destruct (split1_found _ _ _ F) as [-> ->].
      pose proof (find_bound _ _ _ F) as Hb. simpl in Hb.
      apply IH; rewrite length_drop; simpl; lia.
    + by rewrite (contains_none _ _ F).
Qed.

Lemma drain_step buf st i :
  find buf CRLF = Some i ->
  drain body buf st =
  drain body (drop (i + 2) buf) (body (take i buf) st).
Proof.
  intros F. unfold drain.
  pose proof (find_bound _ _ _ F) as Hb. simpl in Hb.
  destruct (length buf) as [|n] eqn:L; [lia|].
  simpl. destruct (split1_found _ _ _ F) as [-> ->]. simpl.
  apply lines_loop_fuel; rewrite length_drop; lia.
Qed.

Lemma drain_done buf st :
  find buf CRLF = None -> drain body buf st = (buf, st).
Proof.
  intros F. unfold drain. destruct (length buf); [done|].
  simpl. by rewrite (contains_none _ _ F).
Qed.

(** One complete line at the head of the buffer: the body runs on it
    and the loop goes on with what follows its terminator. *)
Lemma drain_line line rest st :
  find line CRLF = None ->
  drain body (line ++ CRLF ++ rest) st = drain body rest (body line st).
Proof.
  intros F.
  assert (find (line ++ CRLF ++ rest) CRLF = Some (length line)) as F'.
  { apply find_after; done. }
  rewrite (drain_step _ _ _ F').
  rewrite take_app_length.
  rewrite drop_app_add'; done.
Qed.

(** Text appended to the buffer does not change what the lines already
    complete in it produce. *)
Lemma drain_app buf data st :
  drain body (buf ++ data) st =
  let '(buf', st') := drain body buf st in drain body (buf' ++ data) st'.
Proof.
  remember (length buf) as n eqn:Hn.
  revert buf st Hn. induction (lt_wf n) as [n _ IH]; intros buf st ->.
  destruct (find buf CRLF) as [i|] eqn:F.
  - pose proof (find_bound _ _ _ F) as Hb. simpl in Hb.
    rewrite (drain_step buf st i F).
    rewrite (drain_step (buf ++ data) st i (find_app_l _ _ _ _ F)).
    rewrite take_app_le by lia.
    rewrite drop_app_le by lia.
    eapply IH; [|done]. rewrite length_drop. lia.
  - by rewrite (drain_done buf st F).
Qed.

(** A property of the state that every run of the body keeps is kept
    by the loop. *)
Lemma drain_preserves (R : St -> St -> Prop) `{!PreOrder R} :
  (forall line st, R st (body line st)) ->
  forall buf st, R st (drain body buf st).2.
Proof.
  intros Hbody buf. remember (length buf) as n eqn:Hn.
  revert buf Hn. induction (lt_wf n) as [n _ IH]; intros buf -> st.
  destruct (find buf CRLF) as [i|] eqn:F.
  - pose proof (find_bound _ _ _ F) as Hb. simpl in Hb.
    rewrite (drain_step buf st i F).
    etrans; [apply Hbody|].
    eapply IH; [|done]. rewrite length_drop. lia.
  - by rewrite (drain_done buf st F).
Qed.
End LinesFacts.

(** ** The trace only grows *)

#[local] Instance extends_preorder : PreOrder extends.
Proof.
  split.
  - intros st. split; done.
  - intros a b c [H1 H2] [H3 H4]. split; by etrans.
Qed.

Lemma extends_emit e st : extends st (emit e st).
Proof. split; [by apply prefix_app_r | done]. Qed.

Section Grows.
Context (P : Platform) (cfg : config).

Lemma handle_code_extends code st : extends st (handle_code P cfg code st).
Proof.
  unfold handle_code, check_and_insert.
  case_bool_decide as Hin.
  - set (st1 := {| seen_codes := _; trace := _ |}).
    assert (extends st st1) as H1.
    { split; [done | simpl; set_solver]. }
    destruct (AUTO_REDEEM cfg);
      repeat (etrans; [|apply extends_emit]); done.
  - etrans; [|apply extends_emit]. by destruct st.
Qed.

Lemma process_message_extends msg st :
  extends st (process_message P cfg msg st).
Proof.
  unfold process_message. generalize (extract P cfg msg) as codes.
  intros codes. revert st. induction codes as [|c codes IH]; intros st.
  - done.
  - simpl. etrans; [apply handle_code_extends | apply IH].
Qed.

Lemma handle_line_extends line st : extends st (handle_line P cfg line st).
Proof.
  unfold handle_line.
  destruct (negb (nonempty line)); [done|].
  destruct (startswith line (text "PING")); [apply extends_emit|].
  destruct (split1 line (text " :")) as [|? [|? [|? ?]]]; try done.
  apply process_message_extends.
Qed.

Lemma drain_extends buf st :
  extends st (drain (handle_line P cfg) buf st).2.
Proof. apply drain_preserves; [apply _ | apply handle_line_extends]. Qed.
End Grows.

(** ** The envelope split (lines 255-258) *)

Lemma handle_line_forwarded P cfg line st :
  nonempty line = true -> startswith line (text "PING") = false ->
  handle_line P cfg line st =
  match forwarded line with
  | Some payload => process_message P cfg payload st
  | None => st
  end.
Proof.
  intros Hne Hping. unfold handle_line, forwarded. rewrite Hne, Hping. simpl.
  by destruct (split1 line (text " :")) as [|? [|? [|? ?]]].
Qed.

(** What the code forwards is the text after the first occurrence. *)
Lemma forwarded_first pre payload :
  find pre (text " :") = None ->
  forwarded (pre ++ text " :" ++ payload) = Some payload.
Proof.
  intros F. unfold forwarded.
  assert (find (pre ++ text " :" ++ payload) (text " :") = Some (length pre))
    as F' by (by apply find_after).
  destruct (split1_found _ _ _ F') as [_ ->].
  by rewrite drop_app_add'.
Qed.

Lemma forwarded_absent line :
  find line (text " :") = None -> forwarded line = None.
Proof. intros F. unfold forwarded, split1. by rewrite F. Qed.

(** C1. The claim takes the payload to be the text after the last
    occurrence of [" :"]. On a chat line whose message itself contains
    the delimiter the code forwards the text after the first occurrence,
    here the whole message with the code in it, where the text after the
    last occurrence is only [")"]. *)
Theorem envelope_split_keeps_first_delimiter :
  let line := text ":u!u@u.tmi.twitch.tv PRIVMSG #c :ABCD-1234-EFGH-5678 :)" in
  forwarded line = Some (text "ABCD-1234-EFGH-5678 :)") /\
  payload_after_last line = Some (text ")") /\
  forall P cfg st,
    handle_line P cfg line st =
    process_message P cfg (text "ABCD-1234-EFGH-5678 :)") st.
Proof.
  split; [by vm_compute|]. split; [by vm_compute|].
  intros P cfg st. apply handle_line_forwarded; by vm_compute.
Qed.

(** ** Keepalive and empty lines (lines 250-253) *)

(** C10. An empty line leaves the state as it is, so it neither sends
    an acknowledgment nor reaches the matcher; the loop goes on with the
    text after its terminator. *)
Theorem empty_line_discarded P cfg rest st :
  handle_line P cfg [] st = st /\
  drain (handle_line P cfg) (CRLF ++ rest) st =
  drain (handle_line P cfg) rest st.
Proof.
  split; [done|].
  exact (drain_line (handle_line P cfg) [] rest st eq_refl).
Qed.

(** C4. A line that begins with [PING] makes the body send the one line
    [PONG :tmi.twitch.tv] and nothing else; the lines that follow it in
    the buffer are handled from the state in which that reply is already
    the last event, and what they add comes after it. *)
Theorem ping_acknowledged_first P cfg line rest st :
  startswith line (text "PING") = true ->
  find line CRLF = None ->
  let st1 := emit (SockSend (text "PONG :tmi.twitch.tv" ++ CRLF)) st in
  handle_line P cfg line st = st1 /\
  drain (handle_line P cfg) (line ++ CRLF ++ rest) st =
  drain (handle_line P cfg) rest st1 /\
  trace st ++ [SockSend (text "PONG :tmi.twitch.tv" ++ CRLF)]
    `prefix_of` trace (drain (handle_line P cfg) (line ++ CRLF ++ rest) st).2.
Proof.
  intros Hping Hline st1.
  assert (handle_line P cfg line st = st1) as Hbody.
  { unfold handle_line. rewrite Hping.
    destruct line; [done|]. done. }
  split; [done|].
  rewrite (drain_line (handle_line P cfg) line rest st Hline), Hbody.
  split; [done|].
  apply (drain_extends P cfg rest st1).
Qed.

Lemma ping_acknowledged_first_witness :
  let line := text "PING :tmi.twitch.tv" in
  let rest := text ":u PRIVMSG #c :ABCD-1234-EFGH-5678" ++ CRLF in
  let st1 := emit (SockSend (text "PONG :tmi.twitch.tv" ++ CRLF)) init_state in
  (startswith line (text "PING") = true /\ find line CRLF = None) /\
  (handle_line ascii_platform sample_config line init_state = st1 /\
   drain (handle_line ascii_platform sample_config) (line ++ CRLF ++ rest) init_state =
   drain (handle_line ascii_platform sample_config) rest st1 /\
   trace init_state ++ [SockSend (text "PONG :tmi.twitch.tv" ++ CRLF)]
     `prefix_of` trace (drain (handle_line ascii_platform sample_config) (line ++ CRLF ++ rest) init_state).2).
Proof.
  split; [split; reflexivity|].
  apply ping_acknowledged_first; reflexivity.
Defined.

(** ** The framer *)

Lemma join_lines_app ls1 ls2 :
  join_lines (ls1 ++ ls2) = join_lines ls1 ++ join_lines ls2.
Proof. unfold join_lines. by rewrite map_app, concat_app. Qed.

(** Framing terminated lines followed by an unterminated fragment gives
    back the lines and keeps the fragment in the buffer. *)
Lemma drain_join_lines ls frag acc :
  Forall no_crlf ls -> no_crlf frag ->
  drain collect (join_lines ls ++ frag) acc = (frag, acc ++ ls).
Proof.
  intros Hls Hfrag. revert acc.
  induction Hls as [|l ls Hl _ IH]; intros acc.
  - simpl. rewrite app_nil_r. by apply drain_done.
  - change (join_lines (l :: ls)) with ((l ++ CRLF) ++ join_lines ls).
    rewrite <- !app_assoc.
    rewrite (drain_line collect l _ acc Hl), IH.
    unfold collect. by rewrite <- app_assoc.
Qed.

Section ReceiveFacts.
Context {St : Type} (body : str -> St -> St).

(** The loop leaves no terminator in the buffer. *)
Lemma drain_drained buf st : no_crlf (drain body buf st).1.
Proof.
  remember (length buf) as n eqn:Hn.
  revert buf st Hn. induction (lt_wf n) as [n _ IH]; intros buf st ->.
  destruct (find buf CRLF) as [i|] eqn:F.
  - pose proof (find_bound _ _ _ F) as Hb. simpl in Hb.
    rewrite (drain_step body buf st i F).
    eapply IH; [|done]. rewrite length_drop. lia.
  - by rewrite (drain_done body buf st F).
Qed.

(** Chunks that each decode to some text act like one read of the
    concatenation of their texts. *)
Lemma recv_loop_chunks chunks rs buf st :
  no_crlf buf ->
  Forall (fun c => nonempty (decode c) = true) chunks ->
  recv_loop body (map Recv chunks ++ rs) buf st =
  let '(buf', st') :=
    drain body (buf ++ concat (map decode chunks)) st in
  recv_loop body rs buf' st'.
Proof.
  intros Hbuf Hne. revert buf st Hbuf.
  induction Hne as [|c chunks Hc _ IH]; intros buf st Hbuf.
  - simpl. rewrite app_nil_r. by rewrite (drain_done body buf st Hbuf).
  - simpl. rewrite Hc. simpl.
    rewrite app_assoc.
    rewrite (drain_app body (buf ++ decode c) _ st).
    pose proof (drain_drained (buf ++ decode c) st) as Hd.
    destruct (drain body (buf ++ decode c) st) as [buf' st'].
    by apply IH.
Qed.
End ReceiveFacts.

(** Bytes below 80 decode to themselves. *)
Lemma decode_ascii bs :
  Forall (fun b => Byte.to_N b < 0x80) bs -> decode bs = map Byte.to_N bs.
Proof.
  induction 1 as [|b bs Hb _ IH]; [done|].
  simpl. apply N.ltb_lt in Hb. by rewrite Hb, IH.
Qed.

Lemma decode_ascii_chunks (chunks : list (list byte)) :
  Forall (Forall (fun b => Byte.to_N b < 0x80)) chunks ->
  concat (map decode chunks) = map Byte.to_N (concat chunks).
Proof.
  induction 1 as [|c chunks Hc _ IH]; [done|].
  simpl. by rewrite map_app, IH, decode_ascii.
Qed.

(** On ASCII traffic the lines do not depend on where the chunks are
    cut: they are the lines of the whole text. *)
Lemma framed_ascii chunks :
  Forall (fun c => c <> []) chunks ->
  Forall (Forall (fun b => Byte.to_N b < 0x80)) chunks ->
  framed chunks = (frame (map Byte.to_N (concat chunks))).2.
Proof.
  intros Hne Hascii. unfold framed, frame.
  rewrite <- (app_nil_r (map Recv chunks)).
  rewrite recv_loop_chunks; [|done|].
  - simpl. rewrite decode_ascii_chunks by done.
    by destruct (drain _ _ _).
  - clear -Hne Hascii. induction Hne as [|c chunks Hc _ IH]; [done|].
    inversion Hascii as [|? ? Hca Hrest]; subst.
    constructor; [|by apply IH].
    rewrite decode_ascii by done. by destruct c.
Qed.

Lemma framed_ascii_rechunk chunks1 chunks2 :
  Forall (fun c => c <> []) chunks1 ->
  Forall (fun c => c <> []) chunks2 ->
  Forall (Forall (fun b => Byte.to_N b < 0x80)) chunks1 ->
  concat chunks1 = concat chunks2 ->
  framed chunks1 = framed chunks2.
Proof.
  intros Hne1 Hne2 Ha1 Heq.
  assert (Forall (Forall (fun b => Byte.to_N b < 0x80)) chunks2) as Ha2.
  { apply Forall_concat. rewrite <- Heq. by apply Forall_concat. }
  rewrite !framed_ascii by done. by rewrite Heq.
Qed.

(** C2. The claim makes the lines a function of the received bytes
    alone. The loop decodes every chunk on its own and drops what does
    not decode, so a chunk boundary inside a multi-byte character loses
    the character: the same bytes give the line [...caf] with U+00E9
    when read at once and without it when cut after the first of its two
    bytes. When the cut leaves a chunk with nothing decodable, the empty
    text is taken for the end of the stream and no line is yielded. *)
Theorem framed_depends_on_chunking :
  let head := ascii_bytes ":u PRIVMSG #c :caf" in
  let whole := head ++ [xc3; xa9; x0d; x0a] in
  (head ++ [xc3]) ++ [xa9; x0d; x0a] = whole /\
  framed [whole] = [text ":u PRIVMSG #c :caf" ++ [0xE9]] /\
  framed [head ++ [xc3]; [xa9; x0d; x0a]] = [text ":u PRIVMSG #c :caf"] /\
  recv_loop collect (map Recv [head ++ [xc3]; [xa9]; [x0d; x0a]]) [] [] =
    (text ":u PRIVMSG #c :caf", [], Closed).
Proof. repeat split; by vm_compute. Qed.

(** C6. The framer yields every terminated segment, the empty ones
    included: an empty line at the head of the buffer is handed to the
    body like any other, and the lines of a text are exactly its
    terminated segments. The unterminated fragment after the last
    terminator stays in the buffer, also when the stream ends: the
    zero-byte read, or the reset, leaves the loop without yielding it. *)
Theorem framer_yields_empty_keeps_fragment
    (ls : list str) (frag : str) (chunks : list (list byte)) :
  Forall no_crlf ls -> no_crlf frag ->
  Forall (fun c => nonempty (decode c) = true) chunks ->
  concat (map decode chunks) = join_lines ls ++ frag ->
  (forall rest acc,
     drain collect (CRLF ++ rest) acc = drain collect rest (acc ++ [[]])) /\
  frame (join_lines ls ++ frag) = (frag, ls) /\
  forall rs,
    recv_loop collect (map Recv chunks ++ Recv [] :: rs) [] [] =
    (frag, ls, Closed) /\
    recv_loop collect (map Recv chunks ++ RecvReset :: rs) [] [] =
    (frag, ls, Reset).
Proof.
  intros Hls Hfrag Hne Htext. split; [|split].
  - intros rest acc. exact (drain_line collect [] rest acc eq_refl).
  - unfold frame. by rewrite drain_join_lines.
  - intros rs. rewrite !recv_loop_chunks; [|done|done|done|done].
    simpl. rewrite Htext. by rewrite drain_join_lines.
Qed.

Lemma framer_yields_empty_keeps_fragment_witness :
  let ls := [text "a"; []; text "b"] in
  let frag := text "tail" in
  let chunks := [ascii_bytes "a" ++ [x0d]; [x0a; x0d; x0a];
                 ascii_bytes "b" ++ [x0d; x0a] ++ ascii_bytes "tail"] in
  (Forall no_crlf ls /\ no_crlf frag /\
   Forall (fun c => nonempty (decode c) = true) chunks /\
   concat (map decode chunks) = join_lines ls ++ frag) /\
  ((forall rest acc,
      drain collect (CRLF ++ rest) acc = drain collect rest (acc ++ [[]])) /\
   frame (join_lines ls ++ frag) = (frag, ls) /\
   forall rs,
     recv_loop collect (map Recv chunks ++ Recv [] :: rs) [] [] =
     (frag, ls, Closed) /\
     recv_loop collect (map Recv chunks ++ RecvReset :: rs) [] [] =
     (frag, ls, Reset)).
Proof.
  assert (Forall no_crlf [text "a"; []; text "b"]) as H1
    by (repeat constructor).
  assert (Forall (fun c => nonempty (decode c) = true)
            [ascii_bytes "a" ++ [x0d]; [x0a; x0d; x0a];
             ascii_bytes "b" ++ [x0d; x0a] ++ ascii_bytes "tail"]) as H3
    by (repeat constructor).
  split.
  - split; [exact H1|]. split; [reflexivity|]. split; [exact H3|reflexivity].
  - apply framer_yields_empty_keeps_fragment;
      [exact H1 | reflexivity | exact H3 | reflexivity].
Defined.

(** ** The module body *)

Section ModuleInit.
Context (P : Platform).

(** What a completed module body says about the environment and the
    configuration. *)
Lemma module_init_config env out cfg :
  module_init P env = (out, inl cfg) ->
  NICK cfg = strip (getenv env "TWITCH_NICK" []) /\
  TOKEN cfg = strip (getenv env "TWITCH_OAUTH" []) /\
  CHANNEL cfg = channel_of (strip (getenv env "TWITCH_CHANNEL" [])) /\
  AUTO_REDEEM cfg = flag env "AUTO_REDEEM" /\
  DISABLE_CLIPBOARD cfg = flag env "DISABLE_CLIPBOARD" /\
  (env !! "CODE_REGEX" = None -> code_regex cfg = finditer P default_regex) /\
  nonempty (NICK cfg) = true /\ nonempty (TOKEN cfg) = true /\
  nonempty (CHANNEL cfg) = true /\
  startswith (TOKEN cfg) (text "oauth:") = true /\
  SockConnect ∉ out.
Proof.
  unfold module_init.
  destruct (nonempty (strip (getenv env "TWITCH_NICK" []))) eqn:E1;
    [|done].
  destruct (nonempty (strip (getenv env "TWITCH_OAUTH" []))) eqn:E2;
    [|done].
  destruct (nonempty (channel_of (strip (getenv env "TWITCH_CHANNEL" []))))
    eqn:E3; [|done].
  cbn [andb negb].
  destruct (startswith (strip (getenv env "TWITCH_OAUTH" [])) (text "oauth:"))
    eqn:E4; [|done].
  cbn [negb].
  set (out1 := if _ : bool then [Print WillAutoDetect] else []).
  assert (SockConnect ∉ out1) as Ho1.
  { subst out1. destruct (_ && _); set_solver. }
  clearbody out1.
  match goal with
  | |- (let '(_, _) := ?pid in _) = _ -> _ =>
      assert (SockConnect ∉ pid.2) as Ho2;
        [|destruct pid as [ea_pid out2]]
  end.
  { destruct (env !! "EA_PID") as [v|]; [|set_solver].
    destruct (nonempty v); [|set_solver].
    destruct (py_int P v); set_solver. }
  simpl in Ho2.
  destruct (env !! "CODE_REGEX") as [pat|] eqn:E5.
  - destruct (re_compile P pat); [|done].
    intros [= <- <-]. simpl. repeat split; try done. set_solver.
  - intros [= <- <-]. simpl. repeat split; try done. set_solver.
Qed.

End ModuleInit.

(** ** The pattern *)

(** C5. With [CODE_REGEX] unset, what [process_message] iterates over is
    the one code of the first payload, nothing for the second, and the
    code twice for the third. *)
Theorem extract_default_pattern P env out cfg :
  env !! "CODE_REGEX" = None ->
  module_init P env = (out, inl cfg) ->
  extract P cfg (text "ABCD-1234-EFGH-5678 grab it")
    = [text "ABCD-1234-EFGH-5678"] /\
  extract P cfg (text "no code here") = [] /\
  extract P cfg (text "X1X1-X1X1-X1X1-X1X1 and X1X1-X1X1-X1X1-X1X1")
    = [text "X1X1-X1X1-X1X1-X1X1"; text "X1X1-X1X1-X1X1-X1X1"].
Proof.
  intros Hre Hinit.
  destruct (module_init_config P env out cfg Hinit)
    as (_ & _ & _ & _ & _ & Hfi & _).
  unfold extract. rewrite (Hfi Hre).
  repeat split; by vm_compute.
Qed.

Lemma extract_default_pattern_witness :
  (sample_env !! "CODE_REGEX" = None /\
   module_init ascii_platform sample_env = ([], inl sample_config)) /\
  (extract ascii_platform sample_config (text "ABCD-1234-EFGH-5678 grab it")
     = [text "ABCD-1234-EFGH-5678"] /\
   extract ascii_platform sample_config (text "no code here") = [] /\
   extract ascii_platform sample_config
     (text "X1X1-X1X1-X1X1-X1X1 and X1X1-X1X1-X1X1-X1X1")
     = [text "X1X1-X1X1-X1X1-X1X1"; text "X1X1-X1X1-X1X1-X1X1"]).
Proof.
  split; [split; reflexivity|].
  apply (extract_default_pattern ascii_platform sample_env []); reflexivity.
Defined.

(** ** Self-test mode (lines 225-230) *)

Lemma flag_true env name :
  env !! name = Some (text "1") -> flag env name = true.
Proof. intros H. unfold flag. by apply bool_decide_eq_true_2. Qed.

(** The keepalive reply can always be encoded. *)
Lemma send_PONG st : send PONG st = inl (emit (SockSend (PONG ++ CRLF)) st).
Proof. reflexivity. Qed.

Lemma program_configured P env w out cfg :
  module_init P env = (out, inl cfg) ->
  program P env w = main P cfg env w {| seen_codes := ∅; trace := out |}.
Proof. intros H. unfold program. by rewrite H. Qed.

(** C9. With [NO_CONNECT=1] and neither [TEST_MESSAGE] nor [CODE_REGEX]
    set, the run prints the self-test banner, finds the one code
    [TEST-CODE-1234-ABCD], takes the first-seen branch once (clipboard,
    detection line, beep, and the automation when it is enabled), prints
    the closing line and exits with 0; no socket event occurs. *)
Theorem self_test_default P env w out cfg :
  module_init P env = (out, inl cfg) ->
  env !! "NO_CONNECT" = Some (text "1") ->
  env !! "TEST_MESSAGE" = None ->
  env !! "CODE_REGEX" = None ->
  let code := text "TEST-CODE-1234-ABCD" in
  program P env w =
  ({| seen_codes := {[code]};
      trace := out ++
        [Print (Connecting (NICK cfg)); Print (SelfTest code);
         CopyToClipboard code; Print (CodeDetected code (copied P cfg code));
         Beep] ++
        (if AUTO_REDEEM cfg then [FocusAndType code] else []) ++
        [Print SelfTestComplete] |},
   Exit 0) /\
  SockConnect ∉ trace (program P env w).1.
Proof.
  intros Hinit Hno Hmsg Hre code.
  destruct (module_init_config P env out cfg Hinit)
    as (_ & _ & _ & _ & _ & Hfi & _ & _ & _ & _ & Hout).
  assert (forall st o,
            program P env w = (st, o) ->
            trace st = out ++
              [Print (Connecting (NICK cfg)); Print (SelfTest code);
               CopyToClipboard code;
               Print (CodeDetected code (copied P cfg code)); Beep] ++
              (if AUTO_REDEEM cfg then [FocusAndType code] else []) ++
              [Print SelfTestComplete] ->
            program P env w = (st, o) /\
            SockConnect ∉ trace (program P env w).1) as Hboth.
  { intros st o Hrun Htrace. rewrite Hrun. split; [done|].
    cbn [fst]. rewrite Htrace.
    rewrite !elem_of_app. intros [?|[H|[H|H]]]; [done| | |].
    - set_solver.
    - destruct (AUTO_REDEEM cfg); set_solver.
    - set_solver. }
  apply Hboth; [|done].
  rewrite (program_configured P env w out cfg Hinit).
  unfold main. rewrite (flag_true env "NO_CONNECT" Hno).
  unfold getenv. rewrite Hmsg.
  unfold process_message, extract. rewrite (Hfi Hre).
  assert (finditer P default_regex (upper P TEST_MESSAGE_default) = [code])
    as -> by (by vm_compute).
  change TEST_MESSAGE_default with code.
  cbn [foldl]. unfold handle_code, check_and_insert.
  rewrite bool_decide_eq_true_2 by set_solver.
  unfold emit; cbn [seen_codes trace].
  rewrite (right_id_L ∅ (∪)).
  destruct (AUTO_REDEEM cfg); cbn [seen_codes trace];
    rewrite <- ?app_assoc; reflexivity.
Qed.

Lemma self_test_default_witness :
  let env := <["NO_CONNECT" := text "1"]> sample_env in
  let w := {| connect_ok := false; recvs := [] |} in
  let code := text "TEST-CODE-1234-ABCD" in
  (module_init ascii_platform env = ([], inl sample_config) /\
   env !! "NO_CONNECT" = Some (text "1") /\
   env !! "TEST_MESSAGE" = None /\ env !! "CODE_REGEX" = None) /\
  program ascii_platform env w =
  ({| seen_codes := {[code]};
      trace :=
        [Print (Connecting (text "bot")); Print (SelfTest code);
         CopyToClipboard code; Print (CodeDetected code true); Beep;
         Print SelfTestComplete] |},
   Exit 0) /\
  SockConnect ∉ trace (program ascii_platform env w).1.
Proof.
  split; [repeat split; reflexivity|].
  apply (self_test_default ascii_platform
           (<["NO_CONNECT" := text "1"]> sample_env) _ [] sample_config);
    reflexivity.
Defined.

(** ** Connecting and ending (lines 231-246) *)

Section Session.
Context (P : Platform).

Lemma program_refused env w out cfg :
  module_init P env = (out, inl cfg) ->
  flag env "NO_CONNECT" = false ->
  connect_ok w = false ->
  program P env w =
  ({| seen_codes := ∅;
      trace := out ++ [Print (Connecting (NICK cfg)); SockConnect] |},
   Uncaught OSError).
Proof.
  intros Hinit Hno Hc. rewrite (program_configured P env w out cfg Hinit).
  unfold main. rewrite Hno, Hc. unfold emit; simpl.
  by rewrite <- app_assoc.
Qed.

Lemma handshake_encodable_lines cfg :
  handshake_encodable cfg = true ->
  encodable ((text "PASS " ++ TOKEN cfg) ++ CRLF) = true /\
  encodable ((text "NICK " ++ NICK cfg) ++ CRLF) = true /\
  encodable ((text "JOIN " ++ CHANNEL cfg) ++ CRLF) = true.
Proof.
  unfold handshake_encodable, handshake. cbn [forallb].
  rewrite andb_true_r. by intros [H1 [H2 H3]%andb_prop]%andb_prop.
Qed.

(** With a handshake that can be encoded, the receive loop starts from
    [joined]. *)
Lemma program_connected env w out cfg :
  module_init P env = (out, inl cfg) ->
  flag env "NO_CONNECT" = false ->
  connect_ok w = true ->
  handshake_encodable cfg = true ->
  program P env w =
  let '(_, st, why) :=
    recv_loop (handle_line P cfg) (recvs w) [] (joined cfg out) in
  match why with
  | Reset => (emit (Print ConnectionReset) st, Exit 0)
  | Closed => (emit (Print Disconnected) st, Exit 0)
  | Failed => (st, Uncaught OSError)
  | Starved => (st, Blocked)
  end.
Proof.
  intros Hinit Hno Hc (H1 & H2 & H3)%handshake_encodable_lines.
  rewrite (program_configured P env w out cfg Hinit).
  unfold main. rewrite Hno, Hc. cbn [negb].
  unfold send. rewrite H1, H2, H3.
  unfold emit, joined; cbn [seen_codes trace].
  by rewrite <- !app_assoc.
Qed.

(** The first handshake line that cannot be encoded ends the run: the
    lines before it were sent, no read takes place. *)
Lemma program_unencodable env w out cfg :
  module_init P env = (out, inl cfg) ->
  flag env "NO_CONNECT" = false ->
  connect_ok w = true ->
  handshake_encodable cfg = false ->
  exists pre bad post,
    map (fun msg => msg ++ CRLF) (handshake cfg) = pre ++ bad :: post /\
    forallb encodable pre = true /\ encodable bad = false /\
    program P env w =
      ({| seen_codes := ∅;
          trace := out ++ [Print (Connecting (NICK cfg)); SockConnect]
                       ++ map SockSend pre |},
       Uncaught UnicodeEncodeError).
Proof.
  intros Hinit Hno Hc He.
  rewrite (program_configured P env w out cfg Hinit).
  unfold main. rewrite Hno, Hc. cbn [negb]. unfold send.
  unfold handshake_encodable, handshake in He. cbn [forallb] in He.
  unfold handshake. cbn [map].
  destruct (encodable ((text "PASS " ++ TOKEN cfg) ++ CRLF)) eqn:H1.
  2:{ exists [], ((text "PASS " ++ TOKEN cfg) ++ CRLF),
        [(text "NICK " ++ NICK cfg) ++ CRLF;
         (text "JOIN " ++ CHANNEL cfg) ++ CRLF].
      repeat split; [done|]. unfold emit; cbn [seen_codes trace map].
      by rewrite <- !app_assoc. }
  destruct (encodable ((text "NICK " ++ NICK cfg) ++ CRLF)) eqn:H2.
  2:{ exists [(text "PASS " ++ TOKEN cfg) ++ CRLF],
        ((text "NICK " ++ NICK cfg) ++ CRLF),
        [(text "JOIN " ++ CHANNEL cfg) ++ CRLF].
      repeat split; [by cbn [forallb]; rewrite H1|done|].
      unfold emit; cbn [seen_codes trace map].
      by rewrite <- !app_assoc. }
  destruct (encodable ((text "JOIN " ++ CHANNEL cfg) ++ CRLF)) eqn:H3.
  2:{ exists [(text "PASS " ++ TOKEN cfg) ++ CRLF;
              (text "NICK " ++ NICK cfg) ++ CRLF],
        ((text "JOIN " ++ CHANNEL cfg) ++ CRLF), [].
      repeat split; [by cbn [forallb]; rewrite H1, H2|done|].
      unfold emit; cbn [seen_codes trace map].
      by rewrite <- !app_assoc. }
  done.
Qed.
End Session.

(** The loop is left by the first reset or zero-byte read, if not by an
    earlier chunk without decodable text. *)
Lemma recv_loop_disconnects {St} (body : str -> St -> St) chunks r rs buf st :
  r = RecvReset \/ r = Recv [] ->
  let why := (recv_loop body (map Recv chunks ++ r :: rs) buf st).2 in
  why = Reset \/ why = Closed.
Proof.
  intros Hr. revert buf st. induction chunks as [|c chunks IH]; intros buf st.
  - destruct Hr as [-> | ->]; simpl; auto.
  - simpl. destruct (nonempty (decode c)); simpl; [|auto].
    destruct (drain body (buf ++ decode c) st) as [buf' st']. apply IH.
Qed.

(** C7, as the claim states it: a transport that closes right after the
    handshake would make the run fail. With a complete configuration, a
    connection that opens and a first read of zero bytes, the run prints
    the handshake events and the disconnection line and exits with 0. *)
Lemma immediate_close_exits_zero :
  let w := {| connect_ok := true; recvs := [Recv []] |} in
  module_init ascii_platform sample_env = ([], inl sample_config) /\
  (program ascii_platform sample_env w).2 = Exit 0 /\
  exit_code (program ascii_platform sample_env w).2 = Some 0%Z /\
  trace (program ascii_platform sample_env w).1 =
    [Print (Connecting (text "bot")); SockConnect;
     SockSend (text "PASS oauth:abc" ++ CRLF);
     SockSend (text "NICK bot" ++ CRLF);
     SockSend (text "JOIN #c" ++ CRLF);
     Print (Joined (text "#c")); Print Disconnected].
Proof. repeat split; by vm_compute. Qed.

(** C7, amended. A transport that cannot be opened ends the run with the
    uncaught socket error, exit code 1, nothing sent. A transport that
    closes right after the three handshake lines were sent (the first
    read returns zero bytes) ends the run like any later disconnection:
    the line [Disconnected.] is printed and the exit code is 0. The
    three lines are sent when each can be encoded; otherwise the run
    ends in the handshake with the uncaught [UnicodeEncodeError], exit
    code 1, whatever the transport would deliver. *)
Theorem connect_failure_and_immediate_close P env w out cfg :
  module_init P env = (out, inl cfg) ->
  flag env "NO_CONNECT" = false ->
  (connect_ok w = false ->
   program P env w =
     ({| seen_codes := ∅;
         trace := out ++ [Print (Connecting (NICK cfg)); SockConnect] |},
      Uncaught OSError) /\
   exit_code (program P env w).2 = Some 1%Z) /\
  (connect_ok w = true ->
   handshake_encodable cfg = true ->
   forall rs, recvs w = Recv [] :: rs ->
   program P env w = (emit (Print Disconnected) (joined cfg out), Exit 0) /\
   exit_code (program P env w).2 = Some 0%Z) /\
  (connect_ok w = true ->
   handshake_encodable cfg = false ->
   (program P env w).2 = Uncaught UnicodeEncodeError /\
   exit_code (program P env w).2 = Some 1%Z).
Proof.
  intros Hinit Hno. split; [|split].
  - intros Hc. rewrite (program_refused P env w out cfg Hinit Hno Hc).
    by split.
  - intros Hc He rs Hrs.
    rewrite (program_connected P env w out cfg Hinit Hno Hc He), Hrs.
    by split.
  - intros Hc He.
    destruct (program_unencodable P env w out cfg Hinit Hno Hc He)
      as (pre & bad & post & _ & _ & _ & ->).
    by split.
Qed.

Lemma connect_failure_and_immediate_close_witness :
  let refused := {| connect_ok := false; recvs := [] |} in
  let closed := {| connect_ok := true; recvs := [Recv []] |} in
  (module_init ascii_platform sample_env = ([], inl sample_config) /\
   module_init ascii_platform surrogate_env = ([], inl surrogate_config) /\
   flag sample_env "NO_CONNECT" = false /\
   flag surrogate_env "NO_CONNECT" = false /\
   connect_ok refused = false /\ connect_ok closed = true /\
   handshake_encodable sample_config = true /\
   handshake_encodable surrogate_config = false /\
   recvs closed = Recv [] :: []) /\
  (program ascii_platform sample_env refused =
     ({| seen_codes := ∅;
         trace := [Print (Connecting (text "bot")); SockConnect] |},
      Uncaught OSError) /\
   exit_code (program ascii_platform sample_env refused).2 = Some 1%Z) /\
  (program ascii_platform sample_env closed =
     (emit (Print Disconnected) (joined sample_config []), Exit 0) /\
   exit_code (program ascii_platform sample_env closed).2 = Some 0%Z) /\
  ((program ascii_platform surrogate_env closed).2
     = Uncaught UnicodeEncodeError /\
   exit_code (program ascii_platform surrogate_env closed).2 = Some 1%Z).
Proof.
  split; [repeat split; reflexivity|]. split; [|split].
  - exact (proj1 (connect_failure_and_immediate_close ascii_platform
                    sample_env {| connect_ok := false; recvs := [] |}
                    [] sample_config eq_refl eq_refl) eq_refl).
  - exact (proj1 (proj2 (connect_failure_and_immediate_close ascii_platform
                    sample_env {| connect_ok := true; recvs := [Recv []] |}
                    [] sample_config eq_refl eq_refl))
             eq_refl eq_refl [] eq_refl).
  - exact (proj2 (proj2 (connect_failure_and_immediate_close ascii_platform
                    surrogate_env {| connect_ok := true; recvs := [Recv []] |}
                    [] surrogate_config eq_refl eq_refl))
             eq_refl eq_refl).
Defined.

(** ** Exit codes *)




(** ** The registry (lines 200-205) *)

Lemma check_and_insert_spec c seen :
  check_and_insert c seen = ({[c]} ∪ seen, bool_decide (c ∉ seen)).
Proof.
  unfold check_and_insert. case_bool_decide as H; [done|].
  f_equal. set_solver.
Qed.

Lemma handle_code_registry P cfg c st :
  seen_codes (handle_code P cfg c st) = (check_and_insert c (seen_codes st)).1.
Proof.
  unfold handle_code. destruct (check_and_insert c (seen_codes st)) as [s f].
  destruct f; [destruct (AUTO_REDEEM cfg)|]; done.
Qed.

(** [first] decides between the two branches of [handle_code]. *)
Lemma handle_code_branch P cfg c st :
  trace (handle_code P cfg c st) =
  trace st ++ reaction P cfg c (check_and_insert c (seen_codes st)).2.
Proof.
  unfold handle_code, reaction.
  destruct (check_and_insert c (seen_codes st)) as [s f].
  destruct f; [destruct (AUTO_REDEEM cfg)|]; simpl;
    by rewrite <- ?app_assoc.
Qed.

(** A sequence of calls leaves the registry and the values of [first]
    of [classify_seq], and the reactions to them in order. *)
Lemma handle_codes_spec P cfg codes st :
  seen_codes (handle_codes P cfg codes st)
    = (classify_seq codes (seen_codes st)).1 /\
  trace (handle_codes P cfg codes st)
    = trace st ++
      concat (zip_with (reaction P cfg) codes
                (classify_seq codes (seen_codes st)).2).
Proof.
  revert st. induction codes as [|c codes IH]; intros st.
  - simpl. by rewrite app_nil_r.
  - unfold handle_codes in *. cbn [foldl].
    destruct (IH (handle_code P cfg c st)) as [IH1 IH2].
    rewrite IH1, IH2, handle_code_branch, handle_code_registry.
    cbn [classify_seq].
    destruct (check_and_insert c (seen_codes st)) as [seen1 first].
    cbn [fst snd].
    destruct (classify_seq codes seen1) as [seen2 firsts].
    cbn [fst snd zip_with concat]. by rewrite <- app_assoc.
Qed.

Lemma classify_seq_spec codes seen :
  (classify_seq codes seen).1 = list_to_set codes ∪ seen /\
  forall i c, codes !! i = Some c ->
    (classify_seq codes seen).2 !! i
    = Some (bool_decide ((c ∉ seen) /\ (c ∉ take i codes))).
Proof.
  revert seen. induction codes as [|c0 codes IH]; intros seen.
  - split; [set_solver | done].
  - simpl. rewrite check_and_insert_spec.
    destruct (IH ({[c0]} ∪ seen)) as [IH1 IH2].
    destruct (classify_seq codes ({[c0]} ∪ seen)) as [seen2 firsts].
    simpl in *. split; [set_solver|].
    intros [|i] c Hc; simpl in *.
    + injection Hc as ->. f_equal. apply bool_decide_ext. set_solver.
    + rewrite (IH2 i c Hc). f_equal. apply bool_decide_ext. set_solver.
Qed.

(** ** Concurrent callers of [handle_code] *)

Module InterleavingFacts.
Import Interleaving.

Lemma inv_start codes seen0 : inv seen0 (start codes seen0).
Proof.
  assert (forall i t, pool (start codes seen0) !! i = Some t ->
                      at_pc t = AtLock) as Hall.
  { intros i t. unfold start; simpl. rewrite list_lookup_fmap.
    destruct (codes !! i); simpl; [|done]. by intros [= <-]. }
  split; simpl.
  - intros _ i t H. by rewrite (Hall i t H).
  - intros i j ti tj Hi _ Hs. by rewrite (Hall i ti Hi) in Hs.
  - done.
  - auto.
  - intros i j ti tj Hi _ Hs. by rewrite (Hall i ti Hi) in Hs.
  - intros i t Hi Hs. by rewrite (Hall i t Hi) in Hs.
  - intros i t Hi Hs. by rewrite (Hall i t Hi) in Hs.
  - intros i t Hi Hs. by rewrite (Hall i t Hi) in Hs.
Qed.

(** A lookup in the pool after a step: the caller that moved, or one
    that stayed where it was. *)
Ltac split_lookup H :=
  apply list_lookup_insert_Some in H;
  destruct H as [(<- & <- & _) | (? & H)].

Lemma inv_step seen0 s s' : inv seen0 s -> step s s' -> inv seen0 s'.
Proof.
  intros I Hstep. destruct Hstep as [s i t Hi Hpc Hfree | s i t Hi Hpc
                                    | s i t Hi Hpc | s i t first Hi Hpc].
  - (* acquire *)
    pose proof (inv_free _ _ I Hfree) as Hnone.
    split; simpl.
    + done.
    + intros j k tj tk Hj Hk Hsj Hsk.
      split_lookup Hj; split_lookup Hk; try done.
      * by rewrite (Hnone _ _ Hk) in Hsk.
      * by rewrite (Hnone _ _ Hj) in Hsj.
      * by rewrite (Hnone _ _ Hj) in Hsj.
    + apply I.
    + intros c Hc. destruct (inv_seen _ _ I c Hc) as [?|(j & tj & Hj & ? & Hw)];
        [by left|right].
      exists j, tj. split; [|done].
      rewrite list_lookup_insert_ne; [done|].
      intros <-. rewrite Hi in Hj. injection Hj as <-.
      by rewrite Hpc in Hw.
    + intros j k tj tk Hj Hk Hwj Hwk Hcode.
      split_lookup Hj; split_lookup Hk; try done.
      eapply (inv_won_once _ _ I); done.
    + intros j tj Hj Hw. split_lookup Hj; [done|].
      eapply (inv_won_fresh _ _ I); done.
    + intros j tj Hj Hw. split_lookup Hj; [done|].
      eapply (inv_add _ _ I); done.
    + intros j tj Hj Hw. split_lookup Hj; [done|].
      eapply (inv_past _ _ I); done.
  - (* check *)
    assert (in_section (at_pc t) = true) as Hsec by (by rewrite Hpc).
    split; simpl.
    + intros Hfree. by rewrite (inv_free _ _ I Hfree _ _ Hi) in Hsec.
    + intros j k tj tk Hj Hk Hsj Hsk.
      split_lookup Hj; split_lookup Hk; try done.
      * eapply (inv_mutex _ _ I); done.
      * eapply (inv_mutex _ _ I); done.
      * eapply (inv_mutex _ _ I); done.
    + apply I.
    + intros c Hc. destruct (inv_seen _ _ I c Hc) as [?|(j & tj & Hj & ? & Hw)];
        [by left|right].
      exists j, tj. split; [|done].
      rewrite list_lookup_insert_ne; [done|].
      intros <-. rewrite Hi in Hj. injection Hj as <-.
      by rewrite Hpc in Hw.
    + intros j k tj tk Hj Hk Hwj Hwk Hcode.
      split_lookup Hj; split_lookup Hk; simpl in *;
        try (by case_bool_decide).
      eapply (inv_won_once _ _ I); done.
    + intros j tj Hj Hw. split_lookup Hj; simpl in *;
        [by case_bool_decide|].
      eapply (inv_won_fresh _ _ I); done.
    + intros j tj Hj Hw. split_lookup Hj; simpl in *.
      * by case_bool_decide.
      * eapply (inv_add _ _ I); done.
    + intros j tj Hj Hw. split_lookup Hj; simpl in *.
      * by case_bool_decide.
      * eapply (inv_past _ _ I); done.
  - (* add *)
    assert (in_section (at_pc t) = true) as Hsec by (by rewrite Hpc).
    pose proof (inv_add _ _ I _ _ Hi Hpc) as Hnew.
    split; simpl.
    + intros Hfree. by rewrite (inv_free _ _ I Hfree _ _ Hi) in Hsec.
    + intros j k tj tk Hj Hk Hsj Hsk.
      split_lookup Hj; split_lookup Hk; try done.
      * eapply (inv_mutex _ _ I); done.
      * eapply (inv_mutex _ _ I); done.
      * eapply (inv_mutex _ _ I); done.
    + pose proof (inv_grows _ _ I). set_solver.
    + intros c [->%elem_of_singleton | Hc]%elem_of_union.
      * right. exists i, (move t (AtRelease true)).
        split; [|done]. apply list_lookup_insert_eq.
        by eapply lookup_lt_Some.
      * destruct (inv_seen _ _ I c Hc) as [?|(j & tj & Hj & ? & Hw)];
          [by left|right].
        exists j, tj. split; [|done].
        rewrite list_lookup_insert_ne; [done|].
        intros <-. rewrite Hi in Hj. injection Hj as <-.
        by rewrite Hpc in Hw.
    + intros j k tj tk Hj Hk Hwj Hwk Hcode.
      split_lookup Hj; split_lookup Hk; simpl in *; try done.
      * exfalso. apply Hnew. rewrite Hcode.
        apply (inv_past _ _ I _ _ Hk). by destruct (at_pc tk) as [| | |[]|[]].
      * exfalso. apply Hnew. rewrite <- Hcode.
        apply (inv_past _ _ I _ _ Hj). by destruct (at_pc tj) as [| | |[]|[]].
      * eapply (inv_won_once _ _ I); done.
    + intros j tj Hj Hw. split_lookup Hj; simpl in *.
      * pose proof (inv_grows _ _ I). set_solver.
      * eapply (inv_won_fresh _ _ I); done.
    + intros j tj Hj Hw. split_lookup Hj; [done|].
      assert (i = j); [|done].
      eapply (inv_mutex _ _ I); [done|done|done|by rewrite Hw].
    + intros j tj Hj Hw. split_lookup Hj; simpl in *; [set_solver|].
      pose proof (inv_past _ _ I _ _ Hj Hw). set_solver.
  - (* release *)
    assert (in_section (at_pc t) = true) as Hsec by (by rewrite Hpc).
    split; simpl.
    + intros _ j tj Hj. split_lookup Hj; [done|].
      destruct (in_section (at_pc tj)) eqn:E; [|done].
      exfalso. assert (i = j); [|done].
      eapply (inv_mutex _ _ I); done.
    + intros j k tj tk Hj Hk Hsj Hsk.
      split_lookup Hj; split_lookup Hk; try done.
      eapply (inv_mutex _ _ I); done.
    + apply I.
    + intros c Hc. destruct (inv_seen _ _ I c Hc) as [?|(j & tj & Hj & ? & Hw)];
        [by left|right].
      destruct (decide (i = j)) as [<-|Hne].
      * rewrite Hi in Hj. injection Hj as <-.
        exists i, (move t (Finished first)). split.
        { apply list_lookup_insert_eq. by eapply lookup_lt_Some. }
        split; [done|]. rewrite Hpc in Hw. by destruct first.
      * exists j, tj. split; [|done]. by rewrite list_lookup_insert_ne.
    + assert (won (at_pc (move t (Finished first))) = true ->
              won (at_pc t) = true) as Hkeep.
      { rewrite Hpc. by destruct first. }
      intros j k tj tk Hj Hk Hwj Hwk Hcode.
      split_lookup Hj; split_lookup Hk; try done.
      * eapply (inv_won_once _ _ I); eauto.
      * eapply (inv_won_once _ _ I); eauto.
      * eapply (inv_won_once _ _ I); done.
    + intros j tj Hj Hw. split_lookup Hj.
      * apply (inv_won_fresh _ _ I i t Hi).
        rewrite Hpc. simpl in Hw. by destruct first.
      * eapply (inv_won_fresh _ _ I); done.
    + intros j tj Hj Hw. split_lookup Hj; [done|].
      eapply (inv_add _ _ I); done.
    + intros j tj Hj Hw. split_lookup Hj.
      * apply (inv_past _ _ I i t Hi). by rewrite Hpc.
      * eapply (inv_past _ _ I); done.
Qed.

Lemma inv_reachable codes seen0 s : reachable codes seen0 s -> inv seen0 s.
Proof.
  unfold reachable. revert s. apply rtc_ind_r.
  - apply inv_start.
  - intros s s' _ Hstep I. by eapply inv_step.
Qed.

(** *** One caller after the other *)

Lemma insert_middle (pre post : list thread) x y :
  <[length pre := y]> (pre ++ x :: post) = pre ++ y :: post.
Proof.
  replace (length pre) with (length pre + 0)%nat by lia.
  by rewrite insert_app_r.
Qed.

(** A caller that runs alone through the block does what
    [check_and_insert] does. *)
Lemma run_one pre c post seen :
  rtc step
    {| pool := pre ++ waiting c :: post; registry := seen; held := false |}
    {| pool := pre ++ settled c (check_and_insert c seen).2 :: post;
       registry := (check_and_insert c seen).1; held := false |}.
Proof.
  eapply rtc_l.
  { eapply (acquire _ (length pre) (waiting c));
      [apply list_lookup_middle; done | done | done]. }
  simpl. rewrite insert_middle.
  eapply rtc_l.
  { eapply (check _ (length pre) (move (waiting c) AtCheck));
      [apply list_lookup_middle; done | done]. }
  simpl. rewrite insert_middle.
  unfold check_and_insert. case_bool_decide as Hin; simpl.
  - eapply rtc_l.
    { eapply (add _ (length pre)); [apply list_lookup_middle; done | done]. }
    simpl. rewrite insert_middle.
    eapply rtc_l; [|apply rtc_refl].
    pose proof (release
      {| pool := pre ++ {| code := c; at_pc := AtRelease true |} :: post;
         registry := {[c]} ∪ seen; held := true |}
      (length pre) _ true (list_lookup_middle _ _ _ _ eq_refl) eq_refl) as H.
    simpl in H. by rewrite insert_middle in H.
  - eapply rtc_l; [|apply rtc_refl].
    pose proof (release
      {| pool := pre ++ {| code := c; at_pc := AtRelease false |} :: post;
         registry := seen; held := true |}
      (length pre) _ false (list_lookup_middle _ _ _ _ eq_refl) eq_refl) as H.
    simpl in H. by rewrite insert_middle in H.
Qed.

(** The callers can all finish, in the order of the sequence, with
    the values of [first] of the sequential run. *)
Lemma run_in_order pre codes seen :
  rtc step
    {| pool := pre ++ map waiting codes; registry := seen; held := false |}
    {| pool := pre ++ zip_with settled codes (classify_seq codes seen).2;
       registry := (classify_seq codes seen).1; held := false |}.
Proof.
  revert pre seen. induction codes as [|c codes IH]; intros pre seen.
  - apply rtc_refl.
  - simpl. etrans; [apply run_one|].
    destruct (check_and_insert c seen) as [seen1 first]. simpl.
    specialize (IH (pre ++ [settled c first]) seen1).
    destruct (classify_seq codes seen1) as [seen2 firsts]. simpl in *.
    by rewrite <- !app_assoc in IH.
Qed.

Lemma reachable_in_order codes seen : reachable codes seen (in_order codes seen).
Proof. exact (run_in_order [] codes seen). Qed.

Lemma step_grows s s' : step s s' -> registry s ⊆ registry s'.
Proof. destruct 1; simpl; set_solver. Qed.

(** When every caller is past the block, each code that was not in
    the registry at the start has a caller that found it absent. *)
Lemma finished_winner seen0 s :
  inv seen0 s ->
  (forall i t, pool s !! i = Some t -> finished (at_pc t) = true) ->
  forall i t, pool s !! i = Some t -> code t ∉ seen0 ->
  exists j tj,
    pool s !! j = Some tj /\ code tj = code t /\ at_pc tj = Finished true.
Proof.
  intros I Hall i t Hi Hfresh.
  assert (code t ∈ registry s) as Hin.
  { apply (inv_past _ _ I i t Hi). specialize (Hall i t Hi).
    by destruct (at_pc t). }
  destruct (inv_seen _ _ I _ Hin) as [?|(j & tj & Hj & Hc & Hw)]; [done|].
  exists j, tj. split; [done|]. split; [done|].
  specialize (Hall j tj Hj). by destruct (at_pc tj) as [| | |[]|[]].
Qed.

End InterleavingFacts.

(** C3. A sequence of [handle_code] calls from the empty registry reacts
    to each call by its value of [first], and a call gets [first = True]
    exactly when its code did not occur earlier in the sequence, so for
    each code the first call on it and no later one; the registry ends
    as the set of the codes and no call makes it smaller. With the test and the insertion under the lock,
    the same holds for concurrent callers in every interleaving: at most
    one caller is inside the block, a step never shrinks the registry,
    no two callers of one code both find it absent, and once all callers
    are past the block every code has exactly one caller that did. Such
    complete runs exist: the callers can run one after the other. *)
Theorem first_seen_exactly_once (codes : list str) (s : Interleaving.sys) :
  Interleaving.reachable codes ∅ s ->
  (forall P cfg,
     seen_codes (handle_codes P cfg codes init_state)
       = (classify_seq codes ∅).1 /\
     trace (handle_codes P cfg codes init_state)
       = concat (zip_with (reaction P cfg) codes (classify_seq codes ∅).2)) /\
  (forall i c, codes !! i = Some c ->
     (classify_seq codes ∅).2 !! i = Some (bool_decide (c ∉ take i codes))) /\
  (classify_seq codes ∅).1 = list_to_set codes /\
  (forall c seen, seen ⊆ (check_and_insert c seen).1) /\
  Interleaving.reachable codes ∅ (Interleaving.in_order codes ∅) /\
  (forall i j ti tj,
     Interleaving.pool s !! i = Some ti -> Interleaving.pool s !! j = Some tj ->
     Interleaving.in_section (Interleaving.at_pc ti) = true ->
     Interleaving.in_section (Interleaving.at_pc tj) = true -> i = j) /\
  (forall s', Interleaving.step s s' ->
     Interleaving.registry s ⊆ Interleaving.registry s') /\
  (forall i j ti tj,
     Interleaving.pool s !! i = Some ti -> Interleaving.pool s !! j = Some tj ->
     Interleaving.won (Interleaving.at_pc ti) = true ->
     Interleaving.won (Interleaving.at_pc tj) = true ->
     Interleaving.code ti = Interleaving.code tj -> i = j) /\
  ((forall i t, Interleaving.pool s !! i = Some t ->
      Interleaving.finished (Interleaving.at_pc t) = true) ->
   forall i t, Interleaving.pool s !! i = Some t ->
   exists j tj,
     Interleaving.pool s !! j = Some tj /\
     Interleaving.code tj = Interleaving.code t /\
     Interleaving.at_pc tj = Interleaving.Finished true).
Proof.
  intros Hreach.
  pose proof (InterleavingFacts.inv_reachable codes ∅ s Hreach) as I.
  destruct (classify_seq_spec codes ∅) as [Hset Hfirst].
  split; [|split; [|split; [|split; [|split; [|split; [|split; [|split]]]]]]].
  - intros P cfg. apply (handle_codes_spec P cfg codes init_state).
  - intros i c Hc. rewrite (Hfirst i c Hc). f_equal.
    apply bool_decide_ext. set_solver.
  - rewrite Hset. set_solver.
  - intros c seen. rewrite check_and_insert_spec. simpl. set_solver.
  - apply InterleavingFacts.reachable_in_order.
  - apply (Interleaving.inv_mutex _ _ I).
  - apply InterleavingFacts.step_grows.
  - apply (Interleaving.inv_won_once _ _ I).
  - intros Hall i t Hi.
    apply (InterleavingFacts.finished_winner ∅ s I Hall i t Hi). set_solver.
Qed.

Lemma first_seen_exactly_once_witness :
  let c := text "ABCD-1234-EFGH-5678" in
  let codes := [c; c] in
  let s := Interleaving.in_order codes ∅ in
  Interleaving.reachable codes ∅ s /\
  (classify_seq codes ∅).2 = [true; false] /\
  (classify_seq codes ∅).2 !! 1%nat = Some (bool_decide (c ∉ take 1 codes)) /\
  Interleaving.pool s = [Interleaving.settled c true; Interleaving.settled c false] /\
  exists j tj,
    Interleaving.pool s !! j = Some tj /\
    Interleaving.code tj = c /\
    Interleaving.at_pc tj = Interleaving.Finished true.
Proof.
  intros c codes s.
  pose proof (InterleavingFacts.reachable_in_order codes ∅) as Hr.
  pose proof (first_seen_exactly_once codes s Hr)
    as (_ & Hseq & _ & _ & _ & _ & _ & _ & Hfin).
  split; [exact Hr|]. split; [reflexivity|].
  split; [exact (Hseq 1%nat c eq_refl)|]. split; [reflexivity|].
  refine (Hfin _ 1%nat (Interleaving.settled c false) eq_refl).
  intros [|[|i]] t H; vm_compute in H;
    [injection H as <-; reflexivity | injection H as <-; reflexivity
    | discriminate H].
Defined.

(** * Further properties *)

(** ** The framer loses nothing *)

Lemma startswith_prefix s sep :
  startswith s sep = true -> s = sep ++ drop (length sep) s.
Proof.
  revert s; induction sep as [|c sep IH]; intros [|d s]; simpl; try done.
  intros [->%N.eqb_eq H]%andb_prop. f_equal. by apply IH.
Qed.

(** Where [find] finds the separator, the separator is. *)
Lemma find_occurrence s sep i :
  find s sep = Some i -> s = take i s ++ sep ++ drop (i + length sep) s.
Proof.
  revert i; induction s as [|c s IH]; intros i.
  - simpl. destruct (startswith [] sep) eqn:E; [|done].
    intros [= <-]. by destruct sep.
  - rewrite find_cons. destruct (startswith (c :: s) sep) eqn:E.
    + intros [= <-]. by apply startswith_prefix.
    + destruct (find s sep) as [j|] eqn:F; [|done].
      intros [= <-]. simpl. f_equal. by apply IH.
Qed.

(** Before the place [find] returns, a non-empty separator does not
    occur. *)
Lemma find_first s sep i :
  sep <> [] -> find s sep = Some i -> find (take i s) sep = None.
Proof.
  intros Hsep F. destruct (find (take i s) sep) as [j|] eqn:E; [|done].
  exfalso. pose proof (find_bound _ _ _ E) as Hb.
  pose proof (find_app_l _ (drop i s) _ _ E) as E'.
  rewrite take_drop, F in E'. injection E' as ->.
  rewrite length_take in Hb. destruct sep; [done|]. simpl in Hb. lia.
Qed.

Section FoldFacts.
Context {St : Type} (body : str -> St -> St).

(** On terminated lines followed by an unterminated rest the loop runs
    the body on the lines in order and keeps the rest. *)
Lemma drain_join_lines_body ls frag st :
  Forall no_crlf ls -> no_crlf frag ->
  drain body (join_lines ls ++ frag) st
  = (frag, foldl (fun st l => body l st) st ls).
Proof.
  intros Hls Hfrag. revert st.
  induction Hls as [|l ls Hl _ IH]; intros st.
  - simpl. by apply drain_done.
  - change (join_lines (l :: ls)) with ((l ++ CRLF) ++ join_lines ls).
    rewrite <- !app_assoc.
    by rewrite (drain_line body l _ st Hl), IH.
Qed.
End FoldFacts.

(** Every buffer is terminated lines followed by an unterminated rest,
    and [frame] finds them. *)
Lemma frame_spec buf :
  exists ls rest,
    frame buf = (rest, ls) /\ join_lines ls ++ rest = buf /\
    Forall no_crlf ls /\ no_crlf rest.
Proof.
  remember (length buf) as n eqn:Hn.
  revert buf Hn. induction (lt_wf n) as [n _ IH]; intros buf ->.
  destruct (find buf CRLF) as [i|] eqn:F.
  - pose proof (find_bound _ _ _ F) as Hb. simpl in Hb.
    destruct (IH (length (drop (i + 2) buf))
                ltac:(rewrite length_drop; lia) _ eq_refl)
      as (ls & rest & Hframe & Hjoin & Hls & Hrest).
    exists (take i buf :: ls), rest.
    assert (no_crlf (take i buf)) as Hl by (by apply find_first).
    assert (buf = join_lines (take i buf :: ls) ++ rest) as Hbuf.
    { change (join_lines (take i buf :: ls))
        with ((take i buf ++ CRLF) ++ join_lines ls).
      rewrite <- !app_assoc, Hjoin. by apply find_occurrence. }
    split; [|split; [done|split; [by constructor|done]]].
    unfold frame. rewrite Hbuf at 1.
    apply drain_join_lines; [by constructor | done].
  - exists [], buf. split; [|split; [done|split; [constructor|done]]].
    unfold frame. by apply drain_done.
Qed.

(** X1. Framing loses and adds no character: the lines it yields, each
    with its terminator, followed by what it keeps in the buffer, are
    the buffer it was given; no yielded line and no kept rest contains
    a terminator. *)
Theorem frame_round_trip buf :
  join_lines (frame buf).2 ++ (frame buf).1 = buf /\
  Forall no_crlf (frame buf).2 /\ no_crlf (frame buf).1.
Proof.
  destruct (frame_spec buf) as (ls & rest & -> & Hjoin & Hls & Hrest).
  done.
Qed.

(** The loop with a body is the framer followed by the body on each
    line in order. *)
Lemma drain_as_fold {St} (body : str -> St -> St) buf st :
  drain body buf st
  = ((frame buf).1, foldl (fun st l => body l st) st (frame buf).2).
Proof.
  destruct (frame_spec buf) as (ls & rest & -> & Hjoin & Hls & Hrest).
  simpl. rewrite <- Hjoin at 1. by apply drain_join_lines_body.
Qed.

(** ** Reads and lines *)

(** X2. Reads that each bring some decodable text are handled like one
    read of all their text: the lines of the concatenated text are
    handled in order, each once, and the unterminated rest is the buffer
    with which the next read is awaited. *)
Theorem reads_handled_as_one_text {St} (body : str -> St -> St)
    (chunks : list (list byte)) rs st :
  Forall decodable chunks ->
  recv_loop body (map Recv chunks ++ rs) [] st =
  recv_loop body rs
    (frame (concat (map decode chunks))).1
    (foldl (fun st l => body l st) st (frame (concat (map decode chunks))).2).
Proof.
  intros Hdec. rewrite recv_loop_chunks; [|done|done].
  simpl. by rewrite drain_as_fold.
Qed.

Lemma reads_handled_as_one_text_witness :
  let chunks := [ascii_bytes "PING :a" ++ [x0d]; [x0a] ++ ascii_bytes "x"] in
  Forall decodable chunks /\
  recv_loop collect (map Recv chunks ++ [RecvReset]) [] [] =
  recv_loop collect [RecvReset]
    (frame (concat (map decode chunks))).1
    (foldl (fun st l => collect l st) [] (frame (concat (map decode chunks))).2).
Proof.
  assert (Forall decodable [ascii_bytes "PING :a" ++ [x0d];
                            [x0a] ++ ascii_bytes "x"]) as H
    by (repeat constructor).
  split; [exact H|].
  exact (reads_handled_as_one_text collect _ [RecvReset] [] H).
Defined.

(** X3. On traffic of ASCII bytes the lines do not depend on how the
    bytes arrive: two sequences of non-empty reads with the same bytes
    yield the same lines, those of the whole text. *)
Theorem ascii_lines_independent_of_reads chunks1 chunks2 :
  Forall (fun c => c <> []) chunks1 ->
  Forall (fun c => c <> []) chunks2 ->
  Forall (Forall (fun b => Byte.to_N b < 0x80)) chunks1 ->
  concat chunks1 = concat chunks2 ->
  framed chunks1 = (frame (map Byte.to_N (concat chunks1))).2 /\
  framed chunks1 = framed chunks2.
Proof.
  intros Hne1 Hne2 Ha1 Heq.
  assert (Forall (Forall (fun b => Byte.to_N b < 0x80)) chunks2) as Ha2.
  { apply Forall_concat. rewrite <- Heq. by apply Forall_concat. }
  rewrite !framed_ascii by done. by rewrite Heq.
Qed.

Lemma ascii_lines_independent_of_reads_witness :
  let chunks1 := [ascii_bytes "PING" ++ [x0d]; [x0a] ++ ascii_bytes "x"] in
  let chunks2 := [ascii_bytes "PI"; ascii_bytes "NG" ++ [x0d; x0a];
                  ascii_bytes "x"] in
  (Forall (fun c => c <> []) chunks1 /\ Forall (fun c => c <> []) chunks2 /\
   Forall (Forall (fun b => Byte.to_N b < 0x80)) chunks1 /\
   concat chunks1 = concat chunks2) /\
  framed chunks1 = (frame (map Byte.to_N (concat chunks1))).2 /\
  framed chunks1 = framed chunks2.
Proof.
  assert (Forall (fun c : list byte => c <> [])
            [ascii_bytes "PING" ++ [x0d]; [x0a] ++ ascii_bytes "x"]) as H1
    by (repeat constructor; discriminate).
  assert (Forall (fun c : list byte => c <> [])
            [ascii_bytes "PI"; ascii_bytes "NG" ++ [x0d; x0a];
             ascii_bytes "x"]) as H2
    by (repeat constructor; discriminate).
  assert (Forall (Forall (fun b => Byte.to_N b < 0x80))
            [ascii_bytes "PING" ++ [x0d]; [x0a] ++ ascii_bytes "x"]) as H3
    by (repeat constructor).
  split; [repeat split; [exact H1 | exact H2 | exact H3]|].
  exact (ascii_lines_independent_of_reads _ _ H1 H2 H3 eq_refl).
Defined.

(** ** What is sent *)

Lemma sends_app tr1 tr2 : sends (tr1 ++ tr2) = sends tr1 ++ sends tr2.
Proof. apply omap_app. Qed.

Lemma sends_reaction P cfg c first : sends (reaction P cfg c first) = [].
Proof. unfold reaction. by destruct first, (AUTO_REDEEM cfg). Qed.

Lemma sends_handle_code P cfg c st :
  sends (trace (handle_code P cfg c st)) = sends (trace st).
Proof.
  by rewrite handle_code_branch, sends_app, sends_reaction, app_nil_r.
Qed.

Lemma sends_process_message P cfg msg st :
  sends (trace (process_message P cfg msg st)) = sends (trace st).
Proof.
  unfold process_message. generalize (extract P cfg msg). intros codes.
  revert st. induction codes as [|c codes IH]; intros st; [done|].
  simpl. by rewrite IH, sends_handle_code.
Qed.

(** The loop body sends its reply and nothing else. *)
Lemma sends_handle_line P cfg line st :
  sends (trace (handle_line P cfg line st))
  = sends (trace st) ++ reply_to line.
Proof.
  unfold handle_line, reply_to.
  destruct line as [|c line]; [by rewrite app_nil_r|]. cbn [nonempty negb].
  destruct (startswith (c :: line) (text "PING")).
  - rewrite send_PONG. unfold emit. simpl. by rewrite sends_app.
  - rewrite app_nil_r.
    destruct (split1 (c :: line) (text " :")) as [|? [|? [|? ?]]]; try done.
    apply sends_process_message.
Qed.

Lemma sends_handle_lines P cfg lines st :
  sends (trace (foldl (fun st l => handle_line P cfg l st) st lines))
  = sends (trace st) ++ concat (map reply_to lines).
Proof.
  revert st. induction lines as [|l lines IH]; intros st.
  - simpl. by rewrite app_nil_r.
  - simpl. by rewrite IH, sends_handle_line, <- app_assoc.
Qed.

(** X4. While the buffer is worked off, one [PONG :tmi.twitch.tv] line is
    sent for each line that begins with [PING], in the order of the
    lines, and nothing else is sent, whatever the other lines hold. *)
Theorem one_pong_per_ping P cfg buf st :
  sends (trace (drain (handle_line P cfg) buf st).2)
  = sends (trace st) ++ concat (map reply_to (frame buf).2) /\
  concat (map reply_to (frame buf).2)
  = replicate
      (length (filter (fun l => startswith l (text "PING") = true)
                 (frame buf).2))
      (text "PONG :tmi.twitch.tv" ++ CRLF).
Proof.
  split.
  - rewrite drain_as_fold. simpl. apply sends_handle_lines.
  - generalize (frame buf).2. intros lines.
    induction lines as [|l lines IH]; [done|].
    rewrite filter_cons. cbn [map concat]. unfold reply_to at 1.
    destruct (startswith l (text "PING")) eqn:E.
    + rewrite decide_True by done. cbn [length replicate]. by rewrite IH.
    + rewrite decide_False by done. by rewrite IH.
Qed.

(** ** Invariants of the loops *)

Lemma drain_invariant {St} (body : str -> St -> St) (I : St -> Prop) :
  (forall line st, I st -> I (body line st)) ->
  forall buf st, I st -> I (drain body buf st).2.
Proof.
  intros Hbody buf st. rewrite drain_as_fold. simpl.
  generalize (frame buf).2. intros lines. revert st.
  induction lines as [|l lines IH]; intros st Hst; [done|].
  simpl. apply IH, Hbody, Hst.
Qed.

Lemma recv_loop_invariant {St} (body : str -> St -> St) (I : St -> Prop) :
  (forall line st, I st -> I (body line st)) ->
  forall rs buf st, I st -> I (recv_loop body rs buf st).1.2.
Proof.
  intros Hbody rs. induction rs as [|r rs IH]; intros buf st Hst; [done|].
  destruct r as [bytes| |]; simpl; [|done|done].
  destruct (nonempty (decode bytes)); simpl; [|done].
  pose proof (drain_invariant body I Hbody (buf ++ decode bytes) st Hst) as H.
  destruct (drain body (buf ++ decode bytes) st) as [buf' st']. by apply IH.
Qed.

(** The module body only prints. *)
Lemma module_init_prints P env out r :
  module_init P env = (out, r) -> forallb is_print out = true.
Proof.
  unfold module_init.
  destruct (negb _); [by intros [= <- <-]|].
  destruct (negb _); [by intros [= <- <-]|].
  set (out1 := if _ : bool then [Print WillAutoDetect] else []).
  assert (forallb is_print out1 = true) as Ho1.
  { subst out1. by destruct (_ && _). }
  clearbody out1.
  match goal with
  | |- (let '(_, _) := ?pid in _) = _ -> _ =>
      assert (forallb is_print pid.2 = true) as Ho2;
        [|destruct pid as [ea_pid out2]]
  end.
  { destruct (env !! "EA_PID") as [v|]; [|done].
    destruct (nonempty v); [|done]. by destruct (py_int P v). }
  simpl in Ho2.
  assert (forallb is_print (out1 ++ out2) = true) as Ho.
  { by rewrite forallb_app, Ho1, Ho2. }
  destruct (match env !! "CODE_REGEX" with
            | Some pat => re_compile P pat
            | None => Some (finditer P default_regex)
            end); by intros [= <- <-].
Qed.


Lemma channel_of_hash raw :
  nonempty (channel_of raw) = true ->
  startswith (channel_of raw) (text "#") = true.
Proof.
  unfold channel_of. destruct raw as [|c raw]; [done|]. cbn [nonempty andb].
  destruct (startswith (c :: raw) (text "#")) eqn:E; cbn [negb]; by intros _.
Qed.



(** ** Announcements *)

Lemma announced_app tr1 tr2 :
  announced (tr1 ++ tr2) = announced tr1 ++ announced tr2.
Proof. apply omap_app. Qed.

Lemma automated_app tr1 tr2 :
  automated (tr1 ++ tr2) = automated tr1 ++ automated tr2.
Proof. apply omap_app. Qed.

Lemma beeps_app tr1 tr2 : beeps (tr1 ++ tr2) = (beeps tr1 + beeps tr2)%nat.
Proof. unfold beeps. by rewrite omap_app, length_app. Qed.

Lemma balanced_prints auto out :
  forallb is_print out = true ->
  balanced auto {| seen_codes := ∅; trace := out |}.
Proof.
  intros Hout.
  assert (announced out = [] /\ beeps out = 0%nat /\ automated out = [])
    as (Ha & Hb & Hc).
  { induction out as [|e out IH]; [done|]. simpl in Hout.
    apply andb_prop in Hout as [He Hout]. destruct e; try done.
    by apply IH. }
  unfold balanced. cbn [trace seen_codes]. rewrite Ha, Hb, Hc.
  split; [constructor|]. split; [done|]. split; [done|]. by destruct auto.
Qed.

(** Events other than the three of the first-seen branch leave the
    books as they are. *)
Lemma balanced_emit auto e st :
  (forall c, e <> CopyToClipboard c) -> e <> Beep ->
  (forall c, e <> FocusAndType c) ->
  balanced auto st -> balanced auto (emit e st).
Proof.
  intros H1 H2 H3 (Hnd & Hset & Hb & Ha). unfold balanced, emit.
  cbn [trace seen_codes]. rewrite announced_app, beeps_app, automated_app.
  assert (announced [e] = [] /\ beeps [e] = 0%nat /\ automated [e] = [])
    as (-> & -> & ->).
  { destruct e; try done.
    - by destruct (H1 code).
    - by destruct (H3 code). }
  rewrite !app_nil_r, Nat.add_0_r. done.
Qed.

Lemma balanced_handle_code P cfg c st :
  balanced (AUTO_REDEEM cfg) st ->
  balanced (AUTO_REDEEM cfg) (handle_code P cfg c st).
Proof.
  intros (Hnd & Hset & Hb & Ha). unfold balanced.
  rewrite handle_code_branch, handle_code_registry, check_and_insert_spec.
  cbn [fst snd]. rewrite announced_app, beeps_app, automated_app.
  unfold reaction. case_bool_decide as Hin.
  - assert (announced
              ([CopyToClipboard c; Print (CodeDetected c (copied P cfg c)); Beep]
               ++ (if AUTO_REDEEM cfg then [FocusAndType c] else [])) = [c])
      as -> by (by destruct (AUTO_REDEEM cfg)).
    assert (beeps
              ([CopyToClipboard c; Print (CodeDetected c (copied P cfg c)); Beep]
               ++ (if AUTO_REDEEM cfg then [FocusAndType c] else [])) = 1%nat)
      as -> by (by destruct (AUTO_REDEEM cfg)).
    assert (automated
              ([CopyToClipboard c; Print (CodeDetected c (copied P cfg c)); Beep]
               ++ (if AUTO_REDEEM cfg then [FocusAndType c] else []))
            = if AUTO_REDEEM cfg then [c] else [])
      as -> by (by destruct (AUTO_REDEEM cfg)).
    split; [|split; [|split]].
    + apply NoDup_app. split; [done|]. split; [|apply NoDup_singleton].
      intros x Hx ->%list_elem_of_singleton. apply Hin. rewrite <- Hset.
      by apply elem_of_list_to_set.
    + rewrite list_to_set_app_L, Hset. simpl. set_solver.
    + rewrite length_app, Hb. simpl. lia.
    + rewrite Ha. destruct (AUTO_REDEEM cfg); [done|]. done.
  - simpl. rewrite !app_nil_r, Nat.add_0_r.
    split; [done|]. split; [|done]. rewrite Hset. set_solver.
Qed.

Lemma balanced_handle_line P cfg line st :
  balanced (AUTO_REDEEM cfg) st ->
  balanced (AUTO_REDEEM cfg) (handle_line P cfg line st).
Proof.
  intros Hst. unfold handle_line.
  destruct (negb (nonempty line)); [done|].
  destruct (startswith line (text "PING")).
  { by apply balanced_emit. }
  destruct (split1 line (text " :")) as [|? [|payload [|? ?]]]; try done.
  unfold process_message. generalize (extract P cfg payload). intros codes.
  revert st Hst. induction codes as [|c codes IH]; intros st Hst; [done|].
  simpl. by apply IH, balanced_handle_code.
Qed.

Lemma balanced_process_message P cfg msg st :
  balanced (AUTO_REDEEM cfg) st ->
  balanced (AUTO_REDEEM cfg) (process_message P cfg msg st).
Proof.
  unfold process_message. generalize (extract P cfg msg). intros codes.
  revert st. induction codes as [|c codes IH]; intros st Hst; [done|].
  simpl. by apply IH, balanced_handle_code.
Qed.

(** The books balance at the end of every run. *)
Lemma balanced_program P env w :
  balanced (flag env "AUTO_REDEEM") (program P env w).1.
Proof.
  unfold program.
  destruct (module_init P env) as [out [cfg|o]] eqn:Hinit.
  - pose proof (balanced_prints (flag env "AUTO_REDEEM") out
                  (module_init_prints P env out _ Hinit)) as H0.
    destruct (module_init_config P env out cfg Hinit)
      as (_ & _ & _ & Hauto & _).
    rewrite <- Hauto in *. unfold main.
    destruct (flag env "NO_CONNECT").
    { cbn [fst]. apply balanced_emit; try done.
      apply balanced_process_message. by repeat apply balanced_emit. }
    destruct (connect_ok w); cbn [negb].
    + unfold send.
      destruct (encodable ((text "PASS " ++ TOKEN cfg) ++ CRLF));
        [|cbn [fst]; by repeat apply balanced_emit].
      destruct (encodable ((text "NICK " ++ NICK cfg) ++ CRLF));
        [|cbn [fst]; by repeat apply balanced_emit].
      destruct (encodable ((text "JOIN " ++ CHANNEL cfg) ++ CRLF));
        [|cbn [fst]; by repeat apply balanced_emit].
      set (st0 := emit (Print (Joined (CHANNEL cfg))) _).
      assert (balanced (AUTO_REDEEM cfg) st0) as Hst0.
      { subst st0. by repeat apply balanced_emit. }
      pose proof (recv_loop_invariant (handle_line P cfg)
                    (balanced (AUTO_REDEEM cfg))
                    (balanced_handle_line P cfg) (recvs w) [] st0 Hst0) as H.
      destruct (recv_loop (handle_line P cfg) (recvs w) [] st0)
        as [[buf st] why].
      cbn [fst snd] in H.
      destruct why; cbn [fst]; try done; by apply balanced_emit.
    + cbn [fst]. by repeat apply balanced_emit.
  - by apply balanced_prints, (module_init_prints P env out (inr o)).
Qed.

(** X6. At the end of every run each code has been announced (handed to
    the clipboard step of the first-seen branch) at most once, and the
    registry holds exactly the announced codes. *)
Theorem each_code_announced_once P env w :
  NoDup (announced (trace (program P env w).1)) /\
  list_to_set (announced (trace (program P env w).1))
    = seen_codes (program P env w).1 /\
  length (announced (trace (program P env w).1))
    = size (seen_codes (program P env w).1).
Proof.
  destruct (balanced_program P env w) as (Hnd & Hset & _).
  split; [done|]. split; [done|].
  rewrite <- Hset. by rewrite size_list_to_set.
Qed.

(** X7. Every run beeps once per announced code, and calls the
    automation for exactly the announced codes, in their order, when
    [AUTO_REDEEM] is [1], and never otherwise. *)
Theorem beep_and_automation_follow_announcements P env w :
  beeps (trace (program P env w).1)
    = length (announced (trace (program P env w).1)) /\
  automated (trace (program P env w).1)
    = if flag env "AUTO_REDEEM"
      then announced (trace (program P env w).1) else [].
Proof.
  by destruct (balanced_program P env w) as (_ & _ & Hb & Ha).
Qed.

(** ** What the default pattern matches *)

Lemma match_at_ge P r subj pos e :
  match_at P r subj pos = Some e -> (pos <= e)%nat.
Proof.
  revert pos e. induction r as [|ranges|c|r1 IH1 r2 IH2|r IH n];
    intros pos e; simpl.
  - destruct (boundary_at P subj pos); [|done]. intros [= <-]. lia.
  - destruct (subj !! pos); [|done].
    destruct (in_ranges _ _); [|done]. intros [= <-]. lia.
  - destruct (subj !! pos); [|done].
    destruct (c =? _); [|done]. intros [= <-]. lia.
  - destruct (match_at P r1 subj pos) as [p|] eqn:E; [|done].
    intros H. apply IH1 in E. apply IH2 in H. lia.
  - revert pos. induction n as [|n IHn]; intros pos.
    + intros [= <-]. lia.
    + destruct (match_at P r subj pos) as [p|] eqn:E; [|done].
      intros H. apply IH in E. apply IHn in H. lia.
Qed.

Lemma occur_in_order_skip pre ms rest :
  occur_in_order ms rest -> occur_in_order ms (pre ++ rest).
Proof.
  destruct 1 as [s|pre' m ms rest H]; [constructor|].
  rewrite app_assoc. by constructor.
Qed.

Lemma finditer_from_in_order P r subj fuel pos :
  occur_in_order (finditer_from P r subj fuel pos) (drop pos subj).
Proof.
  revert pos. induction fuel as [|fuel IH]; intros pos; [constructor|].
  simpl. destruct (match_at P r subj pos) as [e|] eqn:E.
  - apply match_at_ge in E.
    destruct (decide (e = pos)) as [->|Hne].
    + rewrite Nat.sub_diag, Nat.max_r by lia. simpl.
      rewrite <- (take_drop 1 (drop pos subj)), drop_drop.
      replace (pos + 1)%nat with (S pos) by lia.
      apply (occur_next (take 1 (drop pos subj)) []), IH.
    + rewrite Nat.max_l by lia.
      rewrite <- (take_drop (e - pos) (drop pos subj)) at 2.
      rewrite drop_drop. replace (pos + (e - pos))%nat with e by lia.
      apply (occur_next [] (take (e - pos) (drop pos subj))), IH.
  - rewrite <- (take_drop 1 (drop pos subj)), drop_drop.
    replace (pos + 1)%nat with (S pos) by lia.
    apply occur_in_order_skip, IH.
Qed.

Lemma match_default_shape P subj pos e :
  match_at P default_regex subj pos = Some e ->
  is_code (take (e - pos) (drop pos subj)) = true.
Proof.
  unfold default_regex, group4. cbn [match_at].
  destruct (boundary_at P subj pos); [|done].
  repeat match goal with
  | |- context [match subj !! ?i with _ => _ end] =>
      let H := fresh "L" in destruct (subj !! i) eqn:H; [|done]
  | |- context [if in_ranges ?c ?r then _ else _] =>
      let H := fresh "R" in destruct (in_ranges c r) eqn:H; [|done]
  | |- context [if (?a =? ?b) then _ else _] =>
      let H := fresh "D" in destruct (a =? b) eqn:H; [|done]
  end.
  destruct (boundary_at P subj _); [|done]. intros [= <-].
  replace (_ - pos)%nat with 19%nat by lia.
  repeat match goal with
  | H : subj !! _ = Some _ |- _ => rewrite (drop_S _ _ _ H); clear H
  end.
  repeat match goal with
  | H : (_ =? _) = true |- _ => apply N.eqb_eq in H; subst
  end.
  cbn [take]. rewrite take_0.
  unfold is_code, is_group, code_char.
  cbn [take drop length forallb lookup list_lookup].
  repeat match goal with
  | H : in_ranges _ _ = true |- _ => rewrite H; clear H
  end.
  reflexivity.
Qed.

Lemma finditer_default_shape P subj :
  forallb is_code (finditer P default_regex subj) = true.
Proof.
  unfold finditer. generalize (S (length subj)) 0%nat. intros fuel.
  induction fuel as [|fuel IH]; intros pos; [done|].
  cbn [finditer_from].
  destruct (match_at P default_regex subj pos) as [e|] eqn:E.
  - cbn [forallb]. by rewrite (match_default_shape P subj pos e E), IH.
  - apply IH.
Qed.

(** X8. With the default pattern, the codes found in a payload occur in
    its upper-cased text from left to right without overlapping, and each
    has the shape [XXXX-XXXX-XXXX-XXXX]: nineteen characters, four groups
    of four of [A-Z0-9] with hyphens between them. *)
Theorem extracted_codes_wellformed P env out cfg msg :
  env !! "CODE_REGEX" = None ->
  module_init P env = (out, inl cfg) ->
  occur_in_order (extract P cfg msg) (upper P msg) /\
  forallb is_code (extract P cfg msg) = true.
Proof.
  intros Hre Hinit.
  destruct (module_init_config P env out cfg Hinit)
    as (_ & _ & _ & _ & _ & Hfi & _).
  unfold extract. rewrite (Hfi Hre). split.
  - exact (finditer_from_in_order P default_regex (upper P msg) _ 0).
  - apply finditer_default_shape.
Qed.

Lemma extracted_codes_wellformed_witness :
  let msg := text "abcd-1234-efgh-5678, X1X1-X1X1-X1X1-X1X1!" in
  (sample_env !! "CODE_REGEX" = None /\
   module_init ascii_platform sample_env = ([], inl sample_config)) /\
  extract ascii_platform sample_config msg
    = [text "ABCD-1234-EFGH-5678"; text "X1X1-X1X1-X1X1-X1X1"] /\
  occur_in_order (extract ascii_platform sample_config msg)
    (upper ascii_platform msg) /\
  forallb is_code (extract ascii_platform sample_config msg) = true.
Proof.
  split; [split; reflexivity|]. split; [reflexivity|].
  exact (extracted_codes_wellformed ascii_platform sample_env [] sample_config
           _ eq_refl eq_refl).
Defined.

(** ** What the registry holds *)

Lemma shaped_process_message P cfg msg st :
  (forall msg, forallb is_code (code_regex cfg msg) = true) ->
  (forall c, c ∈ seen_codes st -> is_code c = true) ->
  forall c, c ∈ seen_codes (process_message P cfg msg st) -> is_code c = true.
Proof.
  intros Hre Hst. unfold process_message, extract.
  specialize (Hre (upper P msg)).
  revert Hre. generalize (code_regex cfg (upper P msg)). intros codes.
  revert st Hst. induction codes as [|c0 codes IH]; intros st Hst Hcodes;
    [done|].
  cbn [foldl forallb] in *. apply andb_prop in Hcodes as [Hc0 Hcodes].
  apply IH; [|done].
  intros c. rewrite handle_code_registry, check_and_insert_spec. cbn [fst].
  intros [->%elem_of_singleton|Hc]%elem_of_union; [done|by apply Hst].
Qed.

Lemma shaped_handle_line P cfg line st :
  (forall msg, forallb is_code (code_regex cfg msg) = true) ->
  (forall c, c ∈ seen_codes st -> is_code c = true) ->
  forall c, c ∈ seen_codes (handle_line P cfg line st) -> is_code c = true.
Proof.
  intros Hre Hst. unfold handle_line.
  destruct (negb (nonempty line)); [done|].
  destruct (startswith line (text "PING")); [done|].
  destruct (split1 line (text " :")) as [|? [|payload [|? ?]]]; try done.
  by apply shaped_process_message.
Qed.

(** X9. With the default pattern, every code in the registry at the end
    of a run has the shape [XXXX-XXXX-XXXX-XXXX] in upper case, whatever
    was received or given as the self-test message. *)
Theorem registry_holds_codes P env w c :
  env !! "CODE_REGEX" = None ->
  c ∈ seen_codes (program P env w).1 -> is_code c = true.
Proof.
  intros Hre. unfold program.
  destruct (module_init P env) as [out [cfg|o]] eqn:Hinit; [|set_solver].
  destruct (module_init_config P env out cfg Hinit)
    as (_ & _ & _ & _ & _ & Hfi & _).
  assert (forall msg, forallb is_code (code_regex cfg msg) = true) as Hshape.
  { intros msg. rewrite (Hfi Hre). apply finditer_default_shape. }
  unfold main. destruct (flag env "NO_CONNECT").
  { cbn [fst]. unfold emit at 1. cbn [seen_codes].
    apply shaped_process_message; [done|]. set_solver. }
  destruct (connect_ok w); cbn [negb]; [|set_solver].
  unfold send.
  destruct (encodable ((text "PASS " ++ TOKEN cfg) ++ CRLF)); [|set_solver].
  destruct (encodable ((text "NICK " ++ NICK cfg) ++ CRLF)); [|set_solver].
  destruct (encodable ((text "JOIN " ++ CHANNEL cfg) ++ CRLF)); [|set_solver].
  set (st0 := emit (Print (Joined (CHANNEL cfg))) _).
  pose proof (recv_loop_invariant (handle_line P cfg)
                (fun st => forall c, c ∈ seen_codes st -> is_code c = true)
                (fun line st => shaped_handle_line P cfg line st Hshape)
                (recvs w) [] st0 ltac:(subst st0; set_solver)) as H.
  destruct (recv_loop (handle_line P cfg) (recvs w) [] st0) as [[buf st] why].
  cbn [fst snd] in H. destruct why; cbn [fst]; apply H.
Qed.

Lemma registry_holds_codes_witness :
  let w := {| connect_ok := true;
              recvs := [Recv (ascii_bytes ":u PRIVMSG #c :abcd-1234-efgh-5678"
                              ++ [x0d; x0a]); RecvReset] |} in
  let c := text "ABCD-1234-EFGH-5678" in
  (sample_env !! "CODE_REGEX" = None /\
   c ∈ seen_codes (program ascii_platform sample_env w).1) /\
  is_code c = true.
Proof.
  assert (text "ABCD-1234-EFGH-5678" ∈
          seen_codes
            (program ascii_platform sample_env
               {| connect_ok := true;
                  recvs := [Recv (ascii_bytes ":u PRIVMSG #c :abcd-1234-efgh-5678"
                                  ++ [x0d; x0a]); RecvReset] |}).1) as Hin.
  { vm_compute. reflexivity. }
  split; [split; [reflexivity | exact Hin]|].
  exact (registry_holds_codes ascii_platform sample_env _ _ eq_refl Hin).
Defined.

(** ** The envelope, as the code splits it *)

(** X10. For a line that does not begin with [PING], what reaches the
    matcher is the text after the first [" :"] of the line, later
    occurrences staying part of the payload; a line without [" :"]
    changes nothing. *)
Theorem payload_is_after_first_delimiter P cfg pre payload line st :
  find pre (text " :") = None ->
  startswith (pre ++ text " :" ++ payload) (text "PING") = false ->
  find line (text " :") = None ->
  startswith line (text "PING") = false ->
  handle_line P cfg (pre ++ text " :" ++ payload) st
    = process_message P cfg payload st /\
  handle_line P cfg line st = st.
Proof.
  intros Hpre Hping Hline Hping'. split.
  - rewrite handle_line_forwarded; [|by destruct pre|done].
    by rewrite forwarded_first.
  - destruct line as [|c line]; [done|].
    rewrite handle_line_forwarded; [|done|done].
    by rewrite forwarded_absent.
Qed.

Lemma payload_is_after_first_delimiter_witness :
  let pre := text ":u!u@u.tmi.twitch.tv PRIVMSG #c" in
  let payload := text "code :ABCD-1234-EFGH-5678" in
  let line := text ":tmi.twitch.tv 366 bot #c" in
  (find pre (text " :") = None /\
   startswith (pre ++ text " :" ++ payload) (text "PING") = false /\
   find line (text " :") = None /\
   startswith line (text "PING") = false) /\
  handle_line ascii_platform sample_config (pre ++ text " :" ++ payload)
    init_state
    = process_message ascii_platform sample_config payload init_state /\
  handle_line ascii_platform sample_config line init_state = init_state.
Proof.
  split; [repeat split; reflexivity|].
  apply payload_is_after_first_delimiter; reflexivity.
Defined.

(** ** How a session ends *)

Lemma recv_loop_starved {St} (body : str -> St -> St) rs buf st :
  (recv_loop body rs buf st).2 = Starved <-> Forall goes_on rs.
Proof.
  revert buf st. induction rs as [|r rs IH]; intros buf st.
  - split; [constructor|done].
  - destruct r as [bytes| |]; simpl.
    + destruct (nonempty (decode bytes)) eqn:E; simpl.
      * destruct (drain body (buf ++ decode bytes) st) as [buf' st'].
        rewrite IH. split.
        -- intros H. constructor; [by exists bytes|done].
        -- by inversion 1.
      * split; [done|]. intros [(c & Heq & Hc) _]%Forall_cons.
        injection Heq as <-. unfold decodable in Hc. congruence.
    + split; [done|]. by intros [(c & Heq & _) _]%Forall_cons.
    + split; [done|]. by intros [(c & Heq & _) _]%Forall_cons.
Qed.

(** X11. Once connected, the process is still waiting for input after
    the recorded reads exactly when the three handshake lines could be
    encoded and every read brought decodable text. A session that has
    sent its handshake never ends by itself: it ends at the first read
    that is a reset, an error or without decodable text, and nothing
    after that read matters. *)
Theorem session_ends_only_by_transport P env w out cfg :
  module_init P env = (out, inl cfg) ->
  flag env "NO_CONNECT" = false ->
  connect_ok w = true ->
  ((program P env w).2 = Blocked <->
   handshake_encodable cfg = true /\ Forall goes_on (recvs w)) /\
  (handshake_encodable cfg = true ->
   forall chunks r rs,
     recvs w = map Recv chunks ++ r :: rs -> Forall decodable chunks ->
     ~ goes_on r ->
     (program P env w).2 <> Blocked /\
     forall rs',
       program P env {| connect_ok := true;
                        recvs := map Recv chunks ++ r :: rs' |}
       = program P env w).
Proof.
  intros Hinit Hno Hc. split.
  - destruct (handshake_encodable cfg) eqn:He.
    + rewrite (program_connected P env w out cfg Hinit Hno Hc He).
      rewrite <- (recv_loop_starved (handle_line P cfg) (recvs w) []
                    (joined cfg out)).
      destruct (recv_loop (handle_line P cfg) (recvs w) [] (joined cfg out))
        as [[buf st] why].
      destruct why; cbn [snd]; split; try done; by intros [_ ?].
    + destruct (program_unencodable P env w out cfg Hinit Hno Hc He)
        as (pre & bad & post & _ & _ & _ & ->).
      cbn [snd]. split; [done|]. by intros [? _].
  - intros He chunks r rs Hrs Hdec Hr.
    assert (forall rs0,
              recv_loop (handle_line P cfg) (map Recv chunks ++ r :: rs0) []
                (joined cfg out)
              = recv_loop (handle_line P cfg) (map Recv chunks ++ [r]) []
                  (joined cfg out) /\
              (recv_loop (handle_line P cfg) (map Recv chunks ++ r :: rs0) []
                 (joined cfg out)).2 <> Starved) as Hsame.
    { intros rs0. rewrite !recv_loop_chunks by done.
      destruct (drain _ _ _) as [buf' st'].
      destruct r as [bytes| |]; simpl; try done.
      destruct (nonempty (decode bytes)) eqn:E; simpl; [|done].
      exfalso. apply Hr. by exists bytes. }
    split.
    + rewrite (program_connected P env w out cfg Hinit Hno Hc He), Hrs.
      destruct (Hsame rs) as [_ Hne].
      destruct (recv_loop (handle_line P cfg) (map Recv chunks ++ r :: rs) []
                  (joined cfg out)) as [[buf st] why].
      by destruct why.
    + intros rs'.
      rewrite (program_connected P env w out cfg Hinit Hno Hc He), Hrs.
      rewrite (program_connected P env
                 {| connect_ok := true;
                    recvs := map Recv chunks ++ r :: rs' |}
                 out cfg Hinit Hno eq_refl He).
      cbn [recvs].
      destruct (Hsame rs) as [-> _]. by destruct (Hsame rs') as [-> _].
Qed.

Lemma session_ends_only_by_transport_witness :
  let w := {| connect_ok := true;
              recvs := map Recv [ascii_bytes "PING :a" ++ [x0d; x0a]]
                         ++ Recv [xa9] :: [Recv (ascii_bytes "lost")] |} in
  (module_init ascii_platform sample_env = ([], inl sample_config) /\
   flag sample_env "NO_CONNECT" = false /\ connect_ok w = true /\
   handshake_encodable sample_config = true /\
   Forall decodable [ascii_bytes "PING :a" ++ [x0d; x0a]] /\
   ~ goes_on (Recv [xa9])) /\
  (program ascii_platform sample_env w).2 <> Blocked /\
  forall rs',
    program ascii_platform sample_env
      {| connect_ok := true;
         recvs := map Recv [ascii_bytes "PING :a" ++ [x0d; x0a]]
                    ++ Recv [xa9] :: rs' |}
    = program ascii_platform sample_env w.
Proof.
  assert (Forall decodable [ascii_bytes "PING :a" ++ [x0d; x0a]]) as Hd
    by (repeat constructor).
  assert (~ goes_on (Recv [xa9])) as Hr.
  { intros (c & Heq & Hc). injection Heq as <-. discriminate Hc. }
  split; [repeat split; [exact Hd | exact Hr]|].
  exact (proj2 (session_ends_only_by_transport ascii_platform sample_env
                  {| connect_ok := true;
                     recvs := map Recv [ascii_bytes "PING :a" ++ [x0d; x0a]]
                                ++ Recv [xa9] :: [Recv (ascii_bytes "lost")] |}
                  [] sample_config eq_refl eq_refl eq_refl) eq_refl
           [ascii_bytes "PING :a" ++ [x0d; x0a]] (Recv [xa9])
           [Recv (ascii_bytes "lost")] eq_refl Hd Hr).
Defined.

(** X12. After a handshake whose three lines could be encoded, a socket
    error other than a reset while reading is not caught: the reads
    before it are handled, then the process ends with the exception and
    exit code 1, without a disconnection line, and nothing after the
    failed read matters. *)
Theorem other_socket_error_is_uncaught P env w out cfg chunks rs :
  module_init P env = (out, inl cfg) ->
  flag env "NO_CONNECT" = false ->
  connect_ok w = true ->
  handshake_encodable cfg = true ->
  recvs w = map Recv chunks ++ RecvError :: rs ->
  Forall decodable chunks ->
  program P env w =
    ((drain (handle_line P cfg) (concat (map decode chunks))
        (joined cfg out)).2,
     Uncaught OSError) /\
  exit_code (program P env w).2 = Some 1%Z.
Proof.
  intros Hinit Hno Hc He Hrs Hdec.
  rewrite (program_connected P env w out cfg Hinit Hno Hc He), Hrs.
  rewrite recv_loop_chunks by done. simpl.
  by destruct (drain _ _ _) as [buf st].
Qed.

Lemma other_socket_error_is_uncaught_witness :
  let chunks := [ascii_bytes "PING :a" ++ [x0d; x0a]] in
  let w := {| connect_ok := true;
              recvs := map Recv chunks ++ RecvError :: [RecvReset] |} in
  (module_init ascii_platform sample_env = ([], inl sample_config) /\
   flag sample_env "NO_CONNECT" = false /\ connect_ok w = true /\
   handshake_encodable sample_config = true /\
   Forall decodable chunks) /\
  program ascii_platform sample_env w =
    ((drain (handle_line ascii_platform sample_config)
        (concat (map decode chunks)) (joined sample_config [])).2,
     Uncaught OSError) /\
  exit_code (program ascii_platform sample_env w).2 = Some 1%Z.
Proof.
  assert (Forall decodable [ascii_bytes "PING :a" ++ [x0d; x0a]]) as Hd
    by (repeat constructor).
  split; [repeat split; exact Hd|].
  exact (other_socket_error_is_uncaught ascii_platform sample_env
           {| connect_ok := true;
              recvs := map Recv [ascii_bytes "PING :a" ++ [x0d; x0a]]
                         ++ RecvError :: [RecvReset] |}
           [] sample_config [ascii_bytes "PING :a" ++ [x0d; x0a]] [RecvReset]
           eq_refl eq_refl eq_refl eq_refl eq_refl Hd).
Defined.

(** ** The configuration *)

Lemma rev_is_reverse (s : str) : rev s = reverse s.
Proof. apply rev_alt. Qed.

Lemma lstrip_head s c : head (lstrip s) = Some c -> isspace c = false.
Proof.
  induction s as [|d s IH]; [done|]. simpl.
  destruct (isspace d) eqn:E; [done|]. simpl. by intros [= <-].
Qed.

Lemma lstrip_last s : lstrip s <> [] -> last (lstrip s) = last s.
Proof.
  induction s as [|d s IH]; [done|]. simpl.
  destruct (isspace d); [|done].
  intros H. rewrite (IH H). destruct s; [done|]. by rewrite last_cons_cons.
Qed.

Lemma strip_last s c : last (strip s) = Some c -> isspace c = false.
Proof.
  unfold strip. rewrite rev_is_reverse, last_reverse. apply lstrip_head.
Qed.

Lemma strip_head s c : head (strip s) = Some c -> isspace c = false.
Proof.
  unfold strip. rewrite rev_is_reverse, head_reverse.
  destruct (lstrip (rev (lstrip s))) as [|d l] eqn:E; [done|].
  rewrite <- E, lstrip_last by (by rewrite E).
  rewrite rev_is_reverse, last_reverse. apply lstrip_head.
Qed.

(** X13. A configuration that passes the module body is normalised: the
    nick is not empty, the credential begins with [oauth:], the channel
    begins with [#] whether or not it was given with one, and none of
    the three begins or ends with white space. *)
Theorem config_is_normalised P env out cfg :
  module_init P env = (out, inl cfg) ->
  NICK cfg <> [] /\
  startswith (TOKEN cfg) (text "oauth:") = true /\
  startswith (CHANNEL cfg) (text "#") = true /\
  forall v, v ∈ [NICK cfg; TOKEN cfg; CHANNEL cfg] ->
    (forall c, head v = Some c -> isspace c = false) /\
    (forall c, last v = Some c -> isspace c = false).
Proof.
  intros Hinit.
  destruct (module_init_config P env out cfg Hinit)
    as (Hn & Ht & Hch & _ & _ & _ & Hnn & _ & Hcn & Htok & _).
  split; [by destruct (NICK cfg)|]. split; [done|].
  split; [rewrite Hch in *; by apply channel_of_hash|].
  intros v Hv. apply elem_of_cons in Hv as [->|Hv];
    [|apply elem_of_cons in Hv as [->|Hv];
      [|apply list_elem_of_singleton in Hv as ->]].
  - rewrite Hn. split; intros c; [apply strip_head | apply strip_last].
  - rewrite Ht. split; intros c; [apply strip_head | apply strip_last].
  - rewrite Hch. unfold channel_of.
    set (raw := strip (getenv env "TWITCH_CHANNEL" [])).
    destruct (nonempty raw && negb (startswith raw (text "#"))) eqn:E.
    + split; intros c.
      * by intros [= <-].
      * apply andb_prop in E as [E _].
        rewrite last_app. destruct (last raw) as [d|] eqn:El.
        -- intros [= <-]. by apply (strip_last _ _ El).
        -- apply last_None in El. by rewrite El in E.
    + split; intros c; [apply strip_head | apply strip_last].
Qed.

Lemma config_is_normalised_witness :
  let env : environ :=
    {[ "TWITCH_NICK" := text " bot "; "TWITCH_OAUTH" := text "oauth:abc";
       "TWITCH_CHANNEL" := text "  c" ]} in
  module_init ascii_platform env = ([], inl sample_config) /\
  NICK sample_config <> [] /\
  startswith (TOKEN sample_config) (text "oauth:") = true /\
  startswith (CHANNEL sample_config) (text "#") = true /\
  forall v, v ∈ [NICK sample_config; TOKEN sample_config;
                 CHANNEL sample_config] ->
    (forall c, head v = Some c -> isspace c = false) /\
    (forall c, last v = Some c -> isspace c = false).
Proof.
  split; [reflexivity|].
  exact (config_is_normalised ascii_platform
           {[ "TWITCH_NICK" := text " bot "; "TWITCH_OAUTH" := text "oauth:abc";
              "TWITCH_CHANNEL" := text "  c" ]} [] sample_config eq_refl).
Defined.

(** ** Self-test mode with any message *)




(** ** The notifier's helpers *)

Module NotifierFacts.
Import Notifier.

(** X15. [copy_to_clipboard] tries no back end when the clipboard is
    disabled and tkinter first otherwise; it reports success exactly
    when tkinter worked or the back end of the running system did
    (Win32 on Windows, pbcopy with return code 0 on macOS, xclip or xsel
    with return code 0 on Linux); xsel is tried only on Linux after
    tkinter and xclip failed. *)
Theorem clipboard_fallbacks disable cw :
  (disable = true -> copy_to_clipboard disable cw = (false, [])) /\
  (disable = false -> head (copy_to_clipboard disable cw).2 = Some TryTk) /\
  ((copy_to_clipboard disable cw).1 = true <->
   disable = false /\
   (tk_ok cw = true \/
    (cb_system cw = Windows /\ win32_result cw = Win32Done) \/
    (cb_system cw = Darwin /\ pbcopy cw = Returned 0) \/
    (cb_system cw = Linux /\
     (xclip cw = Returned 0 \/ xsel cw = Returned 0)))) /\
  (TryXsel ∈ (copy_to_clipboard disable cw).2 ->
   cb_system cw = Linux /\ tk_ok cw = false /\ xclip cw <> Returned 0).
Proof.
  assert (forall r, run_ok r = true <-> r = Returned 0) as Hok.
  { intros [|rc]; simpl; [done|]. rewrite bool_decide_eq_true.
    split; [by intros ->|by intros [= ->]]. }
  unfold copy_to_clipboard. split; [by intros ->|].
  split.
  { intros ->. destruct (tk_ok cw); [done|].
    destruct (cb_system cw); [by destruct (win32_result cw)
                             |by destruct (pbcopy cw)| |done].
    by destruct (run_ok (xclip cw)), (run_ok (xsel cw)). }
  split.
  - destruct disable; [simpl; naive_solver|].
    destruct (tk_ok cw) eqn:Htk; [simpl; naive_solver|].
    destruct (cb_system cw) eqn:Hsys.
    + destruct (win32_result cw) eqn:Hw; simpl; naive_solver.
    + destruct (pbcopy cw) as [|rc] eqn:Hp; simpl; [naive_solver|].
      rewrite bool_decide_eq_true. naive_solver.
    + destruct (run_ok (xclip cw)) eqn:Hx.
      { apply Hok in Hx. simpl. naive_solver. }
      destruct (run_ok (xsel cw)) eqn:Hs.
      { apply Hok in Hs. simpl. naive_solver. }
      simpl. split; [done|].
      intros (_ & [?|[?|[?|(_ & [H|H])]]]); try naive_solver;
        apply Hok in H; congruence.
    + simpl. naive_solver.
  - destruct disable; [simpl; set_solver|].
    destruct (tk_ok cw) eqn:Htk; [simpl; set_solver|].
    destruct (cb_system cw) eqn:Hsys.
    + destruct (win32_result cw); simpl; set_solver.
    + destruct (pbcopy cw); simpl; set_solver.
    + destruct (run_ok (xclip cw)) eqn:Hx; [simpl; set_solver|].
      intros _. split; [done|]. split; [done|].
      intros H%Hok. congruence.
    + simpl. set_solver.
Qed.

Lemma clipboard_fallbacks_witness :
  let cw := {| cb_system := Linux; tk_ok := false;
               win32_result := OpenRefused; pbcopy := Raised;
               xclip := Returned 1; xsel := Returned 0 |} in
  copy_to_clipboard false cw = (true, [TryTk; TryXclip; TryXsel]) /\
  head (copy_to_clipboard false cw).2 = Some TryTk /\
  (cb_system cw = Linux /\ tk_ok cw = false /\ xclip cw <> Returned 0).
Proof.
  split; [reflexivity|]. split.
  - exact (proj1 (proj2 (clipboard_fallbacks false
             {| cb_system := Linux; tk_ok := false;
                win32_result := OpenRefused; pbcopy := Raised;
                xclip := Returned 1; xsel := Returned 0 |})) eq_refl).
  - apply (proj2 (proj2 (proj2 (clipboard_fallbacks false
             {| cb_system := Linux; tk_ok := false;
                win32_result := OpenRefused; pbcopy := Raised;
                xclip := Returned 1; xsel := Returned 0 |})))).
    repeat constructor.
Defined.

Lemma head_omap_Some {A B} (f : A -> option B) (l : list A) y :
  head (omap f l) = Some y ->
  exists before x after,
    l = before ++ x :: after /\ f x = Some y /\
    Forall (fun z => f z = None) before.
Proof.
  induction l as [|x l IH]; [done|].
  change (omap f (x :: l))
    with (match f x with Some y => y :: omap f l | None => omap f l end).
  destruct (f x) as [y'|] eqn:E.
  - intros [= ->]. by exists [], x, l.
  - intros H. destruct (IH H) as (before & x' & after & -> & Hx' & Hb).
    exists (x :: before), x', after. split; [done|]. split; [done|].
    by constructor.
Qed.

Lemma head_omap_None {A B} (f : A -> option B) (l : list A) :
  head (omap f l) = None -> Forall (fun z => f z = None) l.
Proof.
  induction l as [|x l IH]; [constructor|].
  change (omap f (x :: l))
    with (match f x with Some y => y :: omap f l | None => omap f l end).
  destruct (f x) as [y'|] eqn:E; [done|].
  intros H. constructor; [done|by apply IH].
Qed.

(** X16. [auto_detect_pid] returns the pid of the first process, in the
    order of enumeration, whose name lower-cased is [eadesktop.exe],
    skipping processes that vanished or have no name; it returns [None]
    when psutil is missing or no process has that name. *)
Theorem auto_detect_first_match uni_lower psutil procs :
  match auto_detect_pid uni_lower psutil procs with
  | Some pid =>
      psutil = true /\
      exists before name after,
        procs = before ++ Process pid (Some name) :: after /\
        lower uni_lower name = text "eadesktop.exe" /\
        Forall (fun p => is_ea_desktop uni_lower p = None) before
  | None =>
      psutil = false \/
      Forall (fun p => is_ea_desktop uni_lower p = None) procs
  end.
Proof.
  unfold auto_detect_pid. destruct psutil; [|by left].
  destruct (head (omap (is_ea_desktop uni_lower) procs)) as [pid|] eqn:H;
    [|right; by apply head_omap_None].
  apply head_omap_Some in H as (before & p & after & -> & Hp & Hb).
  split; [done|].
  destruct p as [|pid' [name|]]; simpl in Hp; try done.
  destruct (nonempty name); simpl in Hp; [|done].
  case_bool_decide as Hl; [|done]. injection Hp as ->.
  by exists before, name, after.
Qed.

Lemma target_window_first pid ws h :
  target_window pid ws = Some h ->
  exists before w after,
    ws = before ++ w :: after /\ hwnd w = h /\ visible w = true /\
    owner w = pid /\
    Forall (fun w' => ~ (visible w' = true /\ owner w' = pid)) before.
Proof.
  unfold target_window. induction ws as [|w ws IH]; [done|].
  rewrite filter_cons. case_decide as Hw.
  - simpl. intros [= <-]. exists [], w, ws. by destruct Hw.
  - intros H. destruct (IH H) as (before & w' & after & -> & ? & ? & ? & Hb).
    exists (w :: before), w', after. repeat split; try done.
    by constructor.
Qed.

Lemma keys_app a b : keys (a ++ b) = keys a ++ keys b.
Proof. apply omap_app. Qed.

(** X17. [focus_and_type] sends keys only on Windows, with pywin32 and
    pywinauto present, a process id that was given or has just been
    detected (and is not 0), and after focusing the first visible window
    of that process; then it sends exactly: select-all and backspace, the
    code, and [{ENTER}] when [REDEEM_SEND_ENTER] is [1] and never
    otherwise. In every other case no key is sent. *)
Theorem keys_only_into_focused_window send_enter d code ea_pid :
  keys (focus_and_type send_enter d code ea_pid).2 = [] \/
  (keys (focus_and_type send_enter d code ea_pid).2
     = [text "^a{BACKSPACE}"; code]
       ++ (if send_enter then [text "{ENTER}"] else []) /\
   dt_system d = Windows /\ pywin32 d = true /\ focus_ok d = true /\
   pywinauto d = true /\
   exists pid h before w after,
     (ea_pid = Some pid \/
      (ea_pid = None /\ detected d = Some pid /\ pid <> 0%Z)) /\
     (focus_and_type send_enter d code ea_pid).1 = Some pid /\
     Focus h ∈ (focus_and_type send_enter d code ea_pid).2 /\
     h <> 0%Z /\
     windows d = before ++ w :: after /\ hwnd w = h /\ visible w = true /\
     owner w = pid /\
     Forall (fun w' => ~ (visible w' = true /\ owner w' = pid)) before).
Proof.
  unfold focus_and_type.
  assert (forall pre,
            keys pre = [] ->
            forall pid0 : option Z,
            keys (pre ++ [Say NotWindows]) = [] /\
            keys (pre ++ [Say NoPywin32]) = [] /\
            (forall p, keys (pre ++ [Say (NoWindow p)]) = []) /\
            (forall h, keys (pre ++ [Focus h; Say NoFocus]) = []) /\
            (forall h, keys (pre ++ [Focus h; Sleep; Say NoPywinauto]) = []) /\
            (forall h, keys (pre ++ [Focus h; Sleep;
                                     SendKeys (text "^a{BACKSPACE}");
                                     SendKeys code]
                             ++ (if send_enter then [SendKeys (text "{ENTER}")]
                                 else [])
                             ++ [Say (AutoEntered code)])
                       = [text "^a{BACKSPACE}"; code]
                         ++ (if send_enter then [text "{ENTER}"] else [])))
    as Hkeys.
  { intros pre Hpre _.
    repeat split; try intros ?; rewrite !keys_app, ?Hpre; try done.
    by destruct send_enter. }
  set (start :=
         match ea_pid with
         | Some _ => (ea_pid, [], true)
         | None =>
             if falsy (detected d)
             then (detected d, [Detect; Say NotDetected], false)
             else (detected d,
                   [Detect; Say (AutoDetected (default 0%Z (detected d)))],
                   true)
         end).
  assert (keys start.1.2 = [] /\
          (start.2 = true ->
           exists pid, start.1.1 = Some pid /\
             (ea_pid = Some pid \/
              (ea_pid = None /\ detected d = Some pid /\ pid <> 0%Z))))
    as [Hpre Hgo].
  { subst start. destruct ea_pid as [p|]; simpl.
    - split; [done|]. intros _. exists p. auto.
    - destruct (detected d) as [p|]; simpl; [|done].
      case_bool_decide as Hp; simpl; [done|].
      split; [done|]. intros _. exists p. auto. }
  destruct start as [[ea_pid' pre] go]. cbn [fst snd] in *.
  destruct (Hkeys pre Hpre ea_pid') as (K1 & K2 & K3 & K4 & K5 & K6).
  destruct go; cbn [negb]; [|by left].
  destruct (Hgo eq_refl) as (pid & -> & Hpid).
  change (default 0%Z (Some pid)) with pid.
  destruct (dt_system d) eqn:Hsys; cbn [snd]; try (by left).
  destruct (pywin32 d) eqn:Hw32; cbn [negb snd]; [|by left].
  destruct (target_window pid (windows d)) as [h|] eqn:Ht; cbn [falsy snd];
    [|left; apply K3].
  change (default 0%Z (Some h)) with h.
  case_bool_decide as Hh; cbn [snd]; [left; apply K3|].
  destruct (focus_ok d) eqn:Hf; cbn [negb snd]; [|left; apply K4].
  destruct (pywinauto d) eqn:Hpw; cbn [negb fst snd]; [|left; apply K5].
  right. split; [apply K6|]. repeat split; try done.
  destruct (target_window_first pid (windows d) h Ht)
    as (before & w & after & Hws & Hw & Hv & Ho & Hb).
  exists pid, h, before, w, after. repeat split; try done.
  rewrite elem_of_app. right. rewrite elem_of_app. left. set_solver.
Qed.

Lemma focus_and_type_known send_enter d code pid :
  (focus_and_type send_enter d code (Some pid)).1 = Some pid /\
  Detect ∉ (focus_and_type send_enter d code (Some pid)).2.
Proof.
  unfold focus_and_type. cbn [negb default].
  destruct (dt_system d); cbn [fst snd]; try (split; [done|set_solver]).
  destruct (pywin32 d); cbn [negb fst snd]; [|split; [done|set_solver]].
  destruct (falsy _); cbn [fst snd]; [split; [done|set_solver]|].
  destruct (focus_ok d); cbn [negb fst snd]; [|split; [done|set_solver]].
  destruct (pywinauto d); cbn [negb fst snd]; [|split; [done|set_solver]].
  split; [done|]. destruct send_enter; set_solver.
Qed.

(** X18. A process id for the automation that is known, given in [EA_PID]
    or detected by an earlier call, is kept and never looked up again,
    however many calls follow; a call without one looks it up first and
    stores what the detection returns. *)
Theorem pid_is_looked_up_until_known send_enter d code calls pid :
  (focus_and_type_all send_enter calls (Some pid)).1 = Some pid /\
  Forall (fun acts => Detect ∉ acts)
    (focus_and_type_all send_enter calls (Some pid)).2 /\
  (focus_and_type send_enter d code None).1 = detected d /\
  head (focus_and_type send_enter d code None).2 = Some Detect.
Proof.
  split; [|split; [|split]].
  - induction calls as [|[d' code'] calls IH]; [done|]. simpl.
    destruct (focus_and_type_known send_enter d' code' pid) as [Hp _].
    destruct (focus_and_type send_enter d' code' (Some pid)) as [p acts].
    simpl in Hp. subst p.
    by destruct (focus_and_type_all send_enter calls (Some pid)).
  - induction calls as [|[d' code'] calls IH]; [constructor|]. simpl.
    destruct (focus_and_type_known send_enter d' code' pid) as [Hp Hd].
    destruct (focus_and_type send_enter d' code' (Some pid)) as [p acts].
    simpl in Hp, Hd. subst p.
    destruct (focus_and_type_all send_enter calls (Some pid)).
    by constructor.
  - unfold focus_and_type.
    destruct (falsy (detected d)); cbn [negb]; [done|].
    destruct (dt_system d); cbn [fst]; try done.
    destruct (pywin32 d); cbn [negb fst]; [|done].
    destruct (falsy _); cbn [fst]; [done|].
    destruct (focus_ok d); cbn [negb fst]; [|done].
    by destruct (pywinauto d).
  - unfold focus_and_type.
    destruct (falsy (detected d)); cbn [negb]; [done|].
    destruct (dt_system d); cbn [snd]; try done.
    destruct (pywin32 d); cbn [negb snd]; [|done].
    destruct (falsy _); cbn [snd]; [done|].
    destruct (focus_ok d); cbn [negb snd]; [|done].
    by destruct (pywinauto d).
Qed.
End NotifierFacts.

(** ** When the module body completes *)

Lemma nonempty_channel_of raw : nonempty (channel_of raw) = nonempty raw.
Proof.
  unfold channel_of. destruct raw as [|c raw]; [done|].
  by destruct (nonempty (c :: raw) && negb (startswith (c :: raw) (text "#"))).
Qed.

Lemma nonempty_true s : nonempty s = true <-> s <> [].
Proof. by destruct s. Qed.

(** X19. The module body yields a configuration exactly when nick,
    credential and channel are not blank, the credential begins with
    [oauth:] and a pattern given in [CODE_REGEX] compiles; no other
    setting ([AUTO_REDEEM], an [EA_PID] that is not a number, ...) stops
    the start. *)
Theorem startup_succeeds_iff P env :
  (exists out cfg, module_init P env = (out, inl cfg)) <->
  strip (getenv env "TWITCH_NICK" []) <> [] /\
  strip (getenv env "TWITCH_OAUTH" []) <> [] /\
  strip (getenv env "TWITCH_CHANNEL" []) <> [] /\
  startswith (strip (getenv env "TWITCH_OAUTH" [])) (text "oauth:") = true /\
  (forall pat, env !! "CODE_REGEX" = Some pat -> re_compile P pat <> None).
Proof.
  unfold module_init. rewrite nonempty_channel_of.
  rewrite <- !nonempty_true.
  destruct (nonempty (strip (getenv env "TWITCH_NICK" [])));
    [|split; [by intros (? & ? & ?)|by intros (? & _)]].
  destruct (nonempty (strip (getenv env "TWITCH_OAUTH" [])));
    [|split; [by intros (? & ? & ?)|by intros (_ & ? & _)]].
  destruct (nonempty (strip (getenv env "TWITCH_CHANNEL" [])));
    [|split; [by intros (? & ? & ?)|by intros (_ & _ & ? & _)]].
  cbn [andb negb].
  destruct (startswith (strip (getenv env "TWITCH_OAUTH" [])) (text "oauth:"));
    [|split; [by intros (? & ? & ?)|by intros (_ & _ & _ & ? & _)]].
  cbn [negb].
  match goal with
  | |- context [let '(_, _) := ?pid in _] => destruct pid as [ea_pid out2]
  end.
  destruct (env !! "CODE_REGEX") as [pat|].
  - destruct (re_compile P pat) as [fi|] eqn:E.
    + split; [|by eauto].
      intros _. repeat split; try done. intros pat' [= <-]. by rewrite E.
    + split; [by intros (? & ? & ?)|].
      intros (_ & _ & _ & _ & H). by destruct (H pat eq_refl).
  - split; [|by eauto]. intros _. by repeat split.
Qed.

Lemma startup_succeeds_iff_witness :
  (strip (getenv sample_env "TWITCH_NICK" []) <> [] /\
   strip (getenv sample_env "TWITCH_OAUTH" []) <> [] /\
   strip (getenv sample_env "TWITCH_CHANNEL" []) <> [] /\
   startswith (strip (getenv sample_env "TWITCH_OAUTH" [])) (text "oauth:")
     = true /\
   (forall pat, sample_env !! "CODE_REGEX" = Some pat ->
                re_compile ascii_platform pat <> None)) /\
  exists out cfg, module_init ascii_platform sample_env = (out, inl cfg).
Proof.
  assert (strip (getenv sample_env "TWITCH_NICK" []) <> [] /\
          strip (getenv sample_env "TWITCH_OAUTH" []) <> [] /\
          strip (getenv sample_env "TWITCH_CHANNEL" []) <> [] /\
          startswith (strip (getenv sample_env "TWITCH_OAUTH" []))
            (text "oauth:") = true /\
          (forall pat, sample_env !! "CODE_REGEX" = Some pat ->
                       re_compile ascii_platform pat <> None)) as H.
  { repeat split; discriminate. }
  split; [exact H|].
  exact (proj2 (startup_succeeds_iff ascii_platform sample_env) H).
Defined.

(** ** Every match is reported *)

Lemma reported_app tr1 tr2 :
  reported (tr1 ++ tr2) = reported tr1 ++ reported tr2.
Proof. apply omap_app. Qed.

Lemma reported_handle_code P cfg c st :
  reported (trace (handle_code P cfg c st)) = reported (trace st) ++ [c].
Proof.
  rewrite handle_code_branch, reported_app. f_equal.
  unfold reaction.
  by destruct (check_and_insert c (seen_codes st)).2, (AUTO_REDEEM cfg).
Qed.

Lemma reported_process_message P cfg msg st :
  reported (trace (process_message P cfg msg st))
  = reported (trace st) ++ extract P cfg msg.
Proof.
  unfold process_message. generalize (extract P cfg msg). intros codes.
  revert st. induction codes as [|c codes IH]; intros st.
  - simpl. by rewrite app_nil_r.
  - simpl. by rewrite IH, reported_handle_code, <- app_assoc.
Qed.

Lemma reported_handle_line P cfg line st :
  reported (trace (handle_line P cfg line st))
  = reported (trace st) ++ matches_of_line P cfg line.
Proof.
  unfold matches_of_line.
  destruct line as [|c line]; [by rewrite app_nil_r|].
  destruct (startswith (c :: line) (text "PING")) eqn:Hping.
  - unfold handle_line. rewrite Hping. cbn [nonempty negb].
    rewrite send_PONG. unfold emit. cbn [trace]. by rewrite reported_app.
  - rewrite handle_line_forwarded by done.
    destruct (forwarded (c :: line)); [|by rewrite app_nil_r].
    apply reported_process_message.
Qed.

(** X20. While a buffer is worked off, every match of the pattern in the
    payload of every line is reported exactly once, as new or as repeat,
    in the order of the lines and of the matches within a payload; lines
    that begin with [PING] or have no [" :"] report nothing. *)
Theorem every_match_is_reported P cfg buf st :
  reported (trace (drain (handle_line P cfg) buf st).2)
  = reported (trace st)
    ++ concat (map (matches_of_line P cfg) (frame buf).2).
Proof.
  rewrite drain_as_fold. cbn [snd].
  generalize (frame buf).2. intros lines. revert st.
  induction lines as [|l lines IH]; intros st.
  - simpl. by rewrite app_nil_r.
  - simpl. by rewrite IH, reported_handle_line, <- app_assoc.
Qed.

(** ** Concurrent callers always get through *)

Module InterleavingProgress.
Import Interleaving.

(** While the lock is held, some caller is inside the block. *)
Lemma holder_exists codes seen0 s :
  reachable codes seen0 s ->
  held s = true ->
  exists i t, pool s !! i = Some t /\ in_section (at_pc t) = true.
Proof.
  unfold reachable. revert s.
  apply (rtc_ind_r
           (fun s => held s = true ->
                     exists i t, pool s !! i = Some t /\
                                 in_section (at_pc t) = true)); [done|].
  intros s s' _ Hstep IH.
  destruct Hstep as [s i t Hi Hpc Hfree | s i t Hi Hpc
                    | s i t Hi Hpc | s i t first Hi Hpc]; simpl.
  - intros _. exists i, (move t AtCheck). split; [|done].
    apply list_lookup_insert_eq. by eapply lookup_lt_Some.
  - intros _. eexists i, _. split.
    + apply list_lookup_insert_eq. by eapply lookup_lt_Some.
    + simpl. by case_bool_decide.
  - intros _. exists i, (move t (AtRelease true)). split; [|done].
    apply list_lookup_insert_eq. by eapply lookup_lt_Some.
  - done.
Qed.

Lemma in_section_steps s i t :
  pool s !! i = Some t -> in_section (at_pc t) = true -> exists s', step s s'.
Proof.
  intros Hi Hsec. destruct (at_pc t) as [| | |f|f] eqn:Hpc; try done.
  - eexists. by eapply check.
  - eexists. by eapply add.
  - eexists. by eapply release.
Qed.

Lemma sum_insert (f : thread -> nat) (l : list thread) i x y :
  l !! i = Some x ->
  (sum_list (map f (<[i:=y]> l)) + f x = sum_list (map f l) + f y)%nat.
Proof.
  revert i. induction l as [|z l IH]; intros [|i]; simpl; try done.
  - intros [= ->]. lia.
  - intros H. specialize (IH i H). lia.
Qed.

Lemma step_decreases s s' : step s s' -> (work_left s' < work_left s)%nat.
Proof.
  unfold work_left.
  destruct 1 as [s i t Hi Hpc Hfree | s i t Hi Hpc
                | s i t Hi Hpc | s i t first Hi Hpc]; cbn [pool].
  - pose proof (sum_insert (fun t => steps_left (at_pc t)) (pool s) i t
                  (move t AtCheck) Hi) as H.
    cbv beta in H. rewrite Hpc in H. simpl in H. lia.
  - pose proof (sum_insert (fun t => steps_left (at_pc t)) (pool s) i t
                  (move t (if bool_decide (code t ∉ registry s)
                           then AtAdd else AtRelease false)) Hi) as H.
    cbv beta in H. rewrite Hpc in H. simpl in H.
    case_bool_decide; simpl in H; lia.
  - pose proof (sum_insert (fun t => steps_left (at_pc t)) (pool s) i t
                  (move t (AtRelease true)) Hi) as H.
    cbv beta in H. rewrite Hpc in H. simpl in H. lia.
  - pose proof (sum_insert (fun t => steps_left (at_pc t)) (pool s) i t
                  (move t (Finished first)) Hi) as H.
    cbv beta in H. rewrite Hpc in H. simpl in H. lia.
Qed.

Lemma work_left_start codes seen0 :
  work_left (start codes seen0) = (4 * length codes)%nat.
Proof.
  unfold work_left, start. cbn [pool].
  induction codes as [|c codes IH]; [done|]. simpl in *. lia.
Qed.
End InterleavingProgress.

(** X21. Concurrent callers of [handle_code] never block each other for
    good: in every state they can reach, as long as one of them is not
    yet past the block some caller can take a step; every step uses up
    one of at most four steps per caller, so every schedule brings all
    callers past the block. *)
Theorem callers_never_deadlock codes seen0 s :
  Interleaving.reachable codes seen0 s ->
  ((exists i t, Interleaving.pool s !! i = Some t /\
                Interleaving.finished (Interleaving.at_pc t) = false) ->
   exists s', Interleaving.step s s') /\
  (forall s', Interleaving.step s s' -> (work_left s' < work_left s)%nat) /\
  (work_left s <= 4 * length codes)%nat.
Proof.
  intros Hreach. split; [|split].
  - intros (i & t & Hi & Hfin).
    destruct (Interleaving.in_section (Interleaving.at_pc t)) eqn:Hsec.
    { by eapply InterleavingProgress.in_section_steps. }
    destruct (Interleaving.held s) eqn:Hheld.
    + destruct (InterleavingProgress.holder_exists codes seen0 s Hreach Hheld)
        as (j & tj & Hj & Hsj).
      by eapply InterleavingProgress.in_section_steps.
    + eexists. eapply Interleaving.acquire; [done| |done].
      by destruct (Interleaving.at_pc t).
  - intros s'. apply InterleavingProgress.step_decreases.
  - revert s Hreach. unfold Interleaving.reachable.
    apply (rtc_ind_r (fun s => (work_left s <= 4 * length codes)%nat)).
    + by rewrite InterleavingProgress.work_left_start.
    + intros s s' _ Hstep IH.
      apply InterleavingProgress.step_decreases in Hstep. lia.
Qed.

Lemma callers_never_deadlock_witness :
  let codes := [text "A"; text "A"] in
  let s := Interleaving.start codes ∅ in
  Interleaving.reachable codes ∅ s /\
  (exists s', Interleaving.step s s') /\
  (work_left s <= 4 * length codes)%nat.
Proof.
  assert (Interleaving.reachable [text "A"; text "A"] ∅
            (Interleaving.start [text "A"; text "A"] ∅)) as Hr
    by apply rtc_refl.
  split; [exact Hr|].
  destruct (callers_never_deadlock _ _ _ Hr) as (Hstep & _ & Hwork).
  split; [|exact Hwork].
  apply Hstep. exists 0%nat, (Interleaving.waiting (text "A")).
  split; reflexivity.
Defined.
